(** * Matrix-free ridge regression by conjugate gradient

    A verification development for the notebook
    [04-conjugate_gradient_for_linear_systems.ipynb]: the implicit
    operator [w |-> X^T (X w) + alpha w], the two ridge drivers
    [sparse_ridge] and [sparse_ridge_intercept], and the conjugate-gradient
    solver they delegate to; then the cells around the drivers (the
    appended constant column, centering, the residual functions of the
    least-squares notebook, the systems handed to [linalg.solve]) and the
    objective and gradient of [05-logistic_cg.ipynb].

    Scalars are the elements of an ordered field [F] (exact arithmetic);
    concrete runs are evaluated over the rationals.  Vectors are sequences,
    as numpy's one-dimensional arrays are, and every length test the
    libraries perform is written out.  The notebooks compute in double
    precision: the statements on shapes, failures and on which expression
    is computed carry over as they are, the algebraic identities hold in
    exact arithmetic only, and say so.  The module [Float64] keeps the
    operator in double precision, to show where rounding separates the
    two. *)

Set Warnings "-notation-overridden,-ambiguous-paths".
Set Warnings "-redundant-canonical-projection,-notation-for-abbreviation".
Set Warnings "-rewrite-rw,-inexact-float".
From Stdlib Require Import PrimFloat.
From HB Require Import structures.
From mathcomp Require Import boot order algebra.

Set Implicit Arguments.
Unset Strict Implicit.
Unset Printing Implicit Defensive.

Import Order.TTheory GRing.Theory Num.Theory.
Local Open Scope ring_scope.

(** ** Errors *)

(** The ways a call can raise: a shape test of the array library fails,
    a tuple assignment finds the wrong number of values, a name is bound
    nowhere, or a name is bound to a value of another kind than the
    operation needs. *)
Inductive error : Type :=
  | DimensionMismatch
  | UnpackError
  | NameError
  | TypeError.

Inductive result (T : Type) : Type :=
  | Ok of T
  | Err of error.

Arguments Ok {T} _.
Arguments Err {T} _.

Definition bind (T U : Type) (r : result T) (k : T -> result U) : result U :=
  match r with
  | Ok x => k x
  | Err e => Err e
  end.

Notation "'try' x ':=' r 'in' k" := (bind r (fun x => k))
  (at level 10, x name, r at level 100, k at level 200,
   format "'[v' 'try'  x  ':='  r  'in' '/' k ']'").

(** Decidable equality on errors and results, so that concrete runs can
    be compared by evaluation. *)
Definition error_to_nat (e : error) : nat :=
  match e with
  | DimensionMismatch => 0
  | UnpackError => 1
  | NameError => 2
  | TypeError => 3
  end.
Definition nat_to_error (n : nat) : error :=
  match n with
  | 0 => DimensionMismatch
  | 1 => UnpackError
  | 2 => NameError
  | _ => TypeError
  end.

Definition result_to_sum (T : Type) (r : result T) : T + error :=
  match r with
  | Ok x => inl x
  | Err e => inr e
  end.
Definition sum_to_result (T : Type) (s : T + error) : result T :=
  match s with
  | inl x => Ok x
  | inr e => Err e
  end.

Definition is_ok (T : Type) (r : result T) : bool :=
  if r is Ok _ then true else false.

(** ** Vectors and sparse matrices *)

Section Model.

Variable F : realFieldType.

(** One-dimensional arrays with their entries in the field [F]: the
    arrays of the notebooks read in exact arithmetic, without rounding,
    overflow or NaN. *)
Definition vec : Type := seq F.

(** [np.zeros(n)] *)
Definition zeros (n : nat) : vec := nseq n 0.

(** Element-wise sum and difference of two arrays.  Every call site below
    adds arrays of one length: both operands have passed the same shape
    test when the sum is taken. *)
Definition addv (u v : vec) : vec := [seq p.1 + p.2 | p <- zip u v].
Definition subv (u v : vec) : vec := [seq p.1 - p.2 | p <- zip u v].

(** [a * v] for a scalar [a] *)
Definition scalev (a : F) (v : vec) : vec := [seq a * x | x <- v].

(** [u . v] *)
Definition dotv (u v : vec) : F :=
  foldr (fun p acc => p.1 * p.2 + acc) 0 (zip u v).

(** Modelled from the spec: the sparse matrix type of the array library,
    in coordinate form (section 3): a shape and a list of triples
    (row, column, value); entries that share a position add up. *)
Record spmatrix : Type := SpMatrix {
  nrows : nat;
  ncols : nat;
  entries : seq (nat * nat * F)
}.

(** [X.T] *)
Definition transpose (X : spmatrix) : spmatrix :=
  SpMatrix (ncols X) (nrows X) [seq (e.1.2, e.1.1, e.2) | e <- entries X].

(** Coordinate [i] of the product [X w]. *)
Definition row_sum (X : spmatrix) (w : vec) (i : nat) : F :=
  foldr (fun e acc => if e.1.1 == i then e.2 * nth 0 w e.1.2 + acc else acc)
        0 (entries X).

Definition spmv (X : spmatrix) (w : vec) : vec :=
  mkseq (row_sum X w) (nrows X).

(** [X.dot(w)]: the product, after the shape test. *)
Definition spdot (X : spmatrix) (w : vec) : result vec :=
  if size w == ncols X then Ok (spmv X w) else Err DimensionMismatch.

(** The dense matrix a sparse matrix denotes. *)
Definition dense (X : spmatrix) (i j : nat) : F :=
  \sum_(e <- entries X | (e.1.1 == i) && (e.1.2 == j)) e.2.

(** Dense two-dimensional arrays, for [np.diag]. *)
Record ndarray2 : Type := NdArray2 {
  shape2 : nat * nat;
  rows2 : seq vec
}.

(** [np.diag(d)] *)
Definition np_diag (d : vec) : ndarray2 :=
  NdArray2 (size d, size d)
    (mkseq (fun i => mkseq (fun j => if i == j then nth 0 d i else 0) (size d))
           (size d)).

(** [D @ w] for a dense [D] *)
Definition matmul (D : ndarray2) (w : vec) : result vec :=
  if size w == (shape2 D).2 then Ok [seq dotv row w | row <- rows2 D]
  else Err DimensionMismatch.

(** The stop of the slice [a[:k]] of an array of length [len]: a negative
    [k] counts from the end. *)
Definition slice_stop (len : nat) (k : int) : nat :=
  match k with
  | Posz m => minn m len
  | Negz m => len - m.+1
  end.

(** [a[:k] = c] *)
Definition set_prefix (a : vec) (k : int) (c : F) : vec :=
  nseq (slice_stop (size a) k) c ++ drop (slice_stop (size a) k) a.

(** ** The implicit linear operator *)

(** Modelled from the spec: [LinearOperator] of the sparse library
    (section 4.1): a declared shape and a matvec function; [apply] tests
    the length of its argument and then calls the function. *)
Record linear_operator : Type := LinearOperator {
  op_shape : nat * nat;
  op_matvec : vec -> result vec
}.

Definition apply (A : linear_operator) (w : vec) : result vec :=
  if size w == (op_shape A).2 then op_matvec A w else Err DimensionMismatch.

(** ** The notebook *)

(** The module-level names the notebook's functions can read. *)
Record globals : Type := Globals {
  g_X : spmatrix;
  g_y : vec;
  g_alpha : F;
  g_n_features : nat
}.

(** The module-level [matvec]: it reads the globals [X] and [alpha]. *)
Definition matvec (g : globals) (w : vec) : result vec :=
  try Xw := spdot (g_X g) w in
  try XtXw := spdot (transpose (g_X g)) Xw in
  Ok (addv XtXw (scalev (g_alpha g) w)).

(** The [matvec] nested in [sparse_ridge]: [X] and [alpha] are the
    arguments of the enclosing call. *)
Definition ridge_matvec (X : spmatrix) (alpha : F) (w : vec) : result vec :=
  try Xw := spdot X w in
  try XtXw := spdot (transpose X) Xw in
  Ok (addv XtXw (scalev alpha w)).

(** The [matvec] nested in [sparse_ridge_intercept]. *)
Definition intercept_matvec (Xb : spmatrix) (alpha : F) (w : vec)
  : result vec :=
  let n_features : int := (ncols Xb)%:Z - 1 in
  let alpha_diag := zeros (absz (n_features + 1)) in
  let alpha_diag := set_prefix alpha_diag n_features alpha in
  try Xw := spdot Xb w in
  try XtXw := spdot (transpose Xb) Xw in
  try dw := matmul (np_diag alpha_diag) w in
  Ok (addv XtXw dw).

Section Drivers.

(** The library solver [sparse.linalg.cg] and the type of its second
    result.  The drivers call it with its default tolerance and budget.
    Like every function of the notebook they run in the module-level state
    [g]; their parameters [X] and [alpha] shadow the globals of the same
    names. *)
Variable info : Type.
Variable cg : linear_operator -> vec -> option vec -> result (vec * info).

Definition sparse_ridge (g : globals) (X : spmatrix) (y : vec) (alpha : F)
    (x0 : option vec) : result vec :=
  let n_features := ncols X in
  let A := LinearOperator (n_features, n_features) (ridge_matvec X alpha) in
  try b := spdot (transpose X) y in
  try sol := cg A b x0 in
  let: (w_hat, _) := sol in
  Ok w_hat.

Definition sparse_ridge_intercept (g : globals) (Xb : spmatrix) (y : vec)
    (alpha : F) (x0 : option vec) : result (F * F) :=
  let n_features : int := (ncols Xb)%:Z - 1 in
  let A := LinearOperator (absz (n_features + 1), absz (n_features + 1))
                          (intercept_matvec Xb alpha) in
  try b := spdot (transpose Xb) y in
  try sol := cg A b x0 in
  let: (x, _) := sol in
  if x is [:: w_hat; b_hat] then Ok (w_hat, b_hat) else Err UnpackError.

(** The solver returns a vector of the operator's dimension. *)
Definition sized_solver : Prop :=
  forall A b x0 x i, cg A b x0 = Ok (x, i) -> size x = (op_shape A).2.

(** A solver whose second result is rewritten by [f]. *)
Definition relabel (info' : Type) (f : info -> info')
  : linear_operator -> vec -> option vec -> result (vec * info') :=
  fun A b x0 => try sol := cg A b x0 in Ok (sol.1, f sol.2).

End Drivers.

(** ** The conjugate-gradient solver *)

(** Modelled from the spec: the solver the drivers delegate to is the
    sparse library's [cg]; its code is not part of the notebook.  What
    follows is the algorithm of section 4.2, step by step, with the
    statuses of section 7. *)
Inductive status : Type :=
  | Converged
  | Breakdown
  | MaxIterReached.

Definition status_to_nat (st : status) : nat :=
  match st with
  | Converged => 0
  | Breakdown => 1
  | MaxIterReached => 2
  end.
Definition nat_to_status (n : nat) : status :=
  match n with
  | 0 => Converged
  | 1 => Breakdown
  | _ => MaxIterReached
  end.

(** The solver state of section 3: iterate, residual, search direction and
    the squared norm of the residual. *)
Record cg_state : Type := CGState {
  it_x : vec;
  it_r : vec;
  it_p : vec;
  it_rs : F
}.

Definition cg_state_to_tuple (s : cg_state) : vec * vec * vec * F :=
  (it_x s, it_r s, it_p s, it_rs s).
Definition tuple_to_cg_state (t : vec * vec * vec * F) : cg_state :=
  CGState t.1.1.1 t.1.1.2 t.1.2 t.2.

(** What one pass of the loop does: go on, stop with a status, or raise. *)
Inductive step_result : Type :=
  | Continue of cg_state
  | Stop of vec & status
  | Fail of error.

(** Modelled from the spec: the test [sqrt(rs_new) < tol] of step 3.  For
    [0 <= rs], the square root of [rs] is below [tol] exactly when [tol] is
    positive and [rs] is below its square, which needs no root. *)
Definition sqrt_lt (rs tol : F) : bool := (0 < tol) && (rs < tol ^+ 2).

(** Modelled from the spec: one pass of step 3 of section 4.2. *)
Definition cg_step (A : linear_operator) (tol : F) (s : cg_state)
  : step_result :=
  match apply A (it_p s) with
  | Err e => Fail e
  | Ok Ap =>
      let pAp := dotv (it_p s) Ap in
      if pAp <= 0 then Stop (it_x s) Breakdown
      else
        let alpha := it_rs s / pAp in
        let x := addv (it_x s) (scalev alpha (it_p s)) in
        let r := subv (it_r s) (scalev alpha Ap) in
        let rs_new := dotv r r in
        if sqrt_lt rs_new tol then Stop x Converged
        else
          let beta := rs_new / it_rs s in
          let p := addv r (scalev beta (it_p s)) in
          Continue (CGState x r p rs_new)
  end.

(** Modelled from the spec: steps 3 and 4, at most [fuel] passes.  The
    second component counts the passes begun. *)
Fixpoint cg_loop (A : linear_operator) (tol : F) (fuel : nat) (s : cg_state)
  : result (vec * status) * nat :=
  match fuel with
  | 0 => (Ok (it_x s, MaxIterReached), 0%N)
  | k.+1 =>
      match cg_step A tol s with
      | Fail e => (Err e, 1%N)
      | Stop x st => (Ok (x, st), 1%N)
      | Continue s' => let: (res, n) := cg_loop A tol k s' in (res, n.+1)
      end
  end.

(** Modelled from the spec: steps 1 and 2, after the length test on [b]. *)
Definition cg_init (A : linear_operator) (b : vec) (x0 : option vec)
  : result cg_state :=
  if size b == (op_shape A).2 then
    let x := if x0 is Some v then v else zeros (op_shape A).2 in
    try Ax := apply A x in
    let r := subv b Ax in
    Ok (CGState x r r (dotv r r))
  else Err DimensionMismatch.

(** Modelled from the spec: [solve] of section 4.2, with the number of
    passes of the loop it made. *)
Definition solve_counted (A : linear_operator) (b : vec) (x0 : option vec)
    (tol : F) (max_iter : nat) : result (vec * status) * nat :=
  match cg_init A b x0 with
  | Err e => (Err e, 0%N)
  | Ok s0 => cg_loop A tol max_iter s0
  end.

(** Modelled from the spec: [solve] as section 4.2 declares it, returning
    the solution and the status. *)
Definition solve (A : linear_operator) (b : vec) (x0 : option vec)
    (tol : F) (max_iter : nat) : result (vec * status) :=
  (solve_counted A b x0 tol max_iter).1.

(** The state after [k] passes that all went on, if the loop gets there. *)
Fixpoint cg_run (A : linear_operator) (tol : F) (k : nat) (s : cg_state)
  : option cg_state :=
  match k with
  | 0 => Some s
  | k'.+1 =>
      if cg_step A tol s is Continue s' then cg_run A tol k' s' else None
  end.

(** The library solver as the drivers see it: the solver above at a
    default tolerance and iteration budget. *)
Definition library_cg (tol : F) (max_iter : nat) (A : linear_operator)
    (b : vec) (x0 : option vec) : result (vec * status) :=
  solve A b x0 tol max_iter.

End Model.

(** ** Operators given by a matrix *)

(** The vocabulary of the convergence statement of section 4.2: vectors of
    a fixed dimension [n] as row vectors, the matrix an implicit operator
    stands for, symmetry and positive definiteness. *)
Section MatrixView.

Variable F : realFieldType.
Variable n : nat.

(** An array of length [n] as a row vector. *)
Definition to_rV (s : vec F) : 'rV[F]_n := \row_(i < n) nth 0 s i.

Definition dotr (u v : 'rV[F]_n) : F := \sum_(i < n) u 0 i * v 0 i.

(** [A] has shape [(n, n)] and computes [w |-> w M] on arrays of length
    [n]; for a symmetric [M] this is the product [M w]. *)
Definition represents (A : linear_operator F) (M : 'M[F]_n) : Prop :=
  op_shape A = (n, n)
  /\ forall w, size w = n ->
       exists v, [/\ op_matvec A w = Ok v, size v = n
                   & to_rV v = to_rV w *m M].

Definition symmetric (M : 'M[F]_n) : Prop := M^T = M.

Definition positive_definite (M : 'M[F]_n) : Prop :=
  forall v : 'rV[F]_n, v != 0 -> 0 < dotr v (v *m M).

(** The start [x0] is absent or has length [n]. *)
Definition start_ok (x0 : option (vec F)) : bool :=
  if x0 is Some v then size v == n else true.

(** The solver state on row vectors. *)
Record rv_state : Type := RvState {
  rv_x : 'rV[F]_n;
  rv_r : 'rV[F]_n;
  rv_p : 'rV[F]_n;
  rv_rs : F
}.

Definition rv_of_state (s : cg_state F) : rv_state :=
  RvState (to_rV (it_x s)) (to_rV (it_r s)) (to_rV (it_p s)) (it_rs s).

(** One pass of step 3 of section 4.2 on row vectors, with neither the
    curvature test nor the tolerance test. *)
Definition rv_step (M : 'M[F]_n) (s : rv_state) : rv_state :=
  let Ap := rv_p s *m M in
  let alpha := rv_rs s / dotr (rv_p s) Ap in
  let x := rv_x s + alpha *: rv_p s in
  let r := rv_r s - alpha *: Ap in
  let rs_new := dotr r r in
  let beta := rs_new / rv_rs s in
  RvState x r (r + beta *: rv_p s) rs_new.

(** The state steps 1 and 2 build from [b] and the start [x]. *)
Definition rv_init (M : 'M[F]_n) (b x : 'rV[F]_n) : rv_state :=
  let r := b - x *m M in RvState x r r (dotr r r).

End MatrixView.

(** The matrices behind the ridge operator: the dense matrix of [X], and
    [X^T X + alpha I]. *)
Definition dense_mx (F : realFieldType) (X : spmatrix F)
  : 'M[F]_(nrows X, ncols X) := \matrix_(i, j) dense X i j.

Definition ridge_mx (F : realFieldType) (X : spmatrix F) (alpha : F)
  : 'M[F]_(ncols X) := (dense_mx X)^T *m dense_mx X + alpha%:M.

(** ** Concrete inputs *)

Module Examples.

(** [X = [[1,0],[0,2]]], stored without its zeros. *)
Definition X_diag12 : spmatrix rat :=
  SpMatrix 2 2 [:: (0%N, 0%N, 1); (1%N, 1%N, 2%:R)].

(** A one-by-one design matrix and its target. *)
Definition X_one : spmatrix rat := SpMatrix 1 1 [:: (0%N, 0%N, 1)].
Definition y_one : vec rat := [:: 1].

(** Two samples [x = 1] and [x = -1] of one feature on the line
    [y = 2 x + 1], with the column of ones appended. *)
Definition Xb_line : spmatrix rat :=
  SpMatrix 2 2 [:: (0%N, 0%N, 1); (1%N, 0%N, -1); (0%N, 1%N, 1); (1%N, 1%N, 1)].
Definition y_line : vec rat := [:: 3%:R; -1].

(** Two features and the column of ones: three columns. *)
Definition Xb_wide : spmatrix rat :=
  SpMatrix 2 3 [:: (0%N, 0%N, 1); (1%N, 1%N, 1); (0%N, 2%N, 1); (1%N, 2%N, 1)].

(** Some module-level state. *)
Definition g_nb : globals rat := Globals X_diag12 [:: 1; 1] 0 2.
Definition g_other : globals rat := Globals X_one y_one 1 1.

Definition tol_ex : rat := 1 / 10%:R.

(** The zero operator of dimension one: symmetric, not positive definite. *)
Definition A_zero : linear_operator rat :=
  LinearOperator (1%N, 1%N) (fun w => Ok (scalev 0 w)).

(** The operator [w |-> 2 w] of dimension one. *)
Definition A_two : linear_operator rat :=
  LinearOperator (1%N, 1%N) (fun w => Ok (scalev 2%:R w)).

End Examples.

(** ** The other cells of the notebooks *)

(** The design matrices with an appended constant column, the dense
    notebooks on the intercept (centering, residual functions, the ridge
    systems handed to [linalg.solve]) and the logistic-regression
    notebook. *)
Section Cells.

Variable F : realFieldType.

(** *** Stacking a constant column on a sparse matrix *)

(** The sparse library keeps every stored entry inside the shape. *)
Definition in_shape (X : spmatrix F) : bool :=
  all (fun e => (e.1.1 < nrows X)%N && (e.1.2 < ncols X)%N) (entries X).

(** [sparse.hstack((X, c * np.ones((n_samples, 1))))]: the blocks must
    have the same number of rows; the column block is stored after the
    entries of [X], in column [X.shape[1]]. *)
Definition hstack_const (X : spmatrix F) (n_samples : nat) (c : F)
  : result (spmatrix F) :=
  if n_samples == nrows X then
    Ok (SpMatrix (nrows X) (ncols X).+1
          (entries X ++ [seq (i, ncols X, c) | i <- iota 0 n_samples]))
  else Err DimensionMismatch.

(** The cell [w_hat, b_hat = sparse_ridge(Xb, y, alpha=alpha)]: the vector
    the driver returns is unpacked into two names. *)
Definition ridge_unpacked (info : Type)
    (cg : linear_operator F -> vec F -> option (vec F)
          -> result (vec F * info))
    (g : globals F) (Xb : spmatrix F) (y : vec F) (alpha : F)
  : result (F * F) :=
  try x := sparse_ridge cg g Xb y alpha None in
  if x is [:: w_hat; b_hat] then Ok (w_hat, b_hat) else Err UnpackError.

(** The module-level [A = LinearOperator((n_features, n_features),
    matvec=matvec)]: the shape is read when the cell runs, in the state
    [g0]; [matvec] reads [X] and [alpha] when it is called, in the state
    [g]. *)
Definition module_operator (g0 g : globals F) : linear_operator F :=
  LinearOperator (g_n_features g0, g_n_features g0) (matvec g).

(** *** Dense arrays *)

(** [np.sum(v)] *)
Definition sumv (v : vec F) : F := foldr +%R 0 v.

(** An element-wise operation on two one-dimensional arrays, with numpy's
    broadcasting: the lengths agree, or one of them is 1. *)
Definition bcast1 (op : F -> F -> F) (u v : vec F) : result (vec F) :=
  if size u == size v then Ok [seq op p.1 p.2 | p <- zip u v]
  else if size u == 1%N then Ok [seq op (nth 0 u 0) t | t <- v]
  else if size v == 1%N then Ok [seq op t (nth 0 v 0) | t <- u]
  else Err DimensionMismatch.

(** The rows of a two-dimensional array agree with its shape. *)
Definition wf2 (D : ndarray2 F) : bool :=
  (size (rows2 D) == (shape2 D).1)
  && all (fun r => size r == (shape2 D).2) (rows2 D).

(** [D[i, j]] *)
Definition np_entry (D : ndarray2 F) (i j : nat) : F :=
  nth 0 (nth [::] (rows2 D) i) j.

(** [D[:, j]] *)
Definition np_col (D : ndarray2 F) (j : nat) : vec F :=
  [seq nth 0 r j | r <- rows2 D].

(** [D.T] *)
Definition np_T (D : ndarray2 F) : ndarray2 F :=
  NdArray2 ((shape2 D).2, (shape2 D).1) (mkseq (np_col D) (shape2 D).2).

(** [np.dot(u, v)] for two one-dimensional arrays *)
Definition np_dot1 (u v : vec F) : result F :=
  if size u == size v then Ok (dotv u v) else Err DimensionMismatch.

(** [np.dot(A, B)] for two two-dimensional arrays *)
Definition np_dot2 (A B : ndarray2 F) : result (ndarray2 F) :=
  if (shape2 A).2 == (shape2 B).1 then
    Ok (NdArray2 ((shape2 A).1, (shape2 B).2)
          [seq [seq dotv r c | c <- rows2 (np_T B)] | r <- rows2 A])
  else Err DimensionMismatch.

(** [np.eye(k)] *)
Definition np_eye (k : nat) : ndarray2 F :=
  NdArray2 (k, k) (mkseq (fun i => mkseq (fun j => (i == j)%:R) k) k).

(** [a * D] for a scalar [a] *)
Definition np_scale2 (a : F) (D : ndarray2 F) : ndarray2 F :=
  NdArray2 (shape2 D) [seq scalev a r | r <- rows2 D].

(** Broadcasting of one dimension: equal lengths, or one of them 1. *)
Definition bdim (a c : nat) : option nat :=
  if a == c then Some a
  else if a == 1%N then Some c
  else if c == 1%N then Some a
  else None.

(** The entry a broadcast array shows at [(i, j)]: a dimension of length 1
    is read at index 0. *)
Definition np_get (D : ndarray2 F) (i j : nat) : F :=
  nth 0 (nth [::] (rows2 D) (if (shape2 D).1 == 1%N then 0%N else i))
        (if (shape2 D).2 == 1%N then 0%N else j).

(** [A + B] for two two-dimensional arrays, with broadcasting *)
Definition np_add2 (A B : ndarray2 F) : result (ndarray2 F) :=
  match bdim (shape2 A).1 (shape2 B).1, bdim (shape2 A).2 (shape2 B).2 with
  | Some r, Some c =>
      Ok (NdArray2 (r, c)
            (mkseq (fun i => mkseq (fun j => np_get A i j + np_get B i j) c)
                   r))
  | _, _ => Err DimensionMismatch
  end.

(** [np.concatenate((X, np.ones((n_samples, 1))), axis=1)] *)
Definition concat_ones (X : ndarray2 F) (n_samples : nat)
  : result (ndarray2 F) :=
  if n_samples == (shape2 X).1 then
    Ok (NdArray2 ((shape2 X).1, (shape2 X).2.+1)
          [seq rcons r 1 | r <- rows2 X])
  else Err DimensionMismatch.

(** *** Centering (the [linalg.solve] and least-squares notebooks) *)

(** [np.mean(y)] and [np.mean(X, axis=0)].  On an empty array numpy
    returns NaN; the statements below are about arrays with at least one
    sample. *)
Definition np_mean (y : vec F) : F := sumv y / (size y)%:R.

Definition np_mean_axis0 (X : ndarray2 F) : vec F :=
  mkseq (fun j => sumv (np_col X j) / ((shape2 X).1)%:R) (shape2 X).2.

(** [X_centered = X - X_mean] (the mean is subtracted from every row) and
    [y_centered = y - y_mean]. *)
Definition X_centered (X : ndarray2 F) : ndarray2 F :=
  NdArray2 (shape2 X) [seq subv r (np_mean_axis0 X) | r <- rows2 X].


(** [b_hat = - np.dot(X_mean, w_hat) + y_mean] *)
Definition b_hat (X : ndarray2 F) (y w_hat : vec F) : result F :=
  try d := np_dot1 (np_mean_axis0 X) w_hat in Ok (- d + np_mean y).

(** Option 1 of the [linalg.solve] notebook: the matrix and the right-hand
    side passed to the solver,
    [np.dot(X_centered.T, X_centered) + alpha * np.eye(1)] and
    [np.dot(X_centered.T, y)]. *)
Definition option1_matrix (X : ndarray2 F) (alpha : F)
  : result (ndarray2 F) :=
  try G := np_dot2 (np_T (X_centered X)) (X_centered X) in
  np_add2 G (np_scale2 alpha (np_eye 1)).


(** Option 2: [np.dot(Xb.T, Xb) + alpha * np.eye(2)]. *)
Definition option2_matrix (Xb : ndarray2 F) (alpha : F)
  : result (ndarray2 F) :=
  try G := np_dot2 (np_T Xb) Xb in
  np_add2 G (np_scale2 alpha (np_eye 2)).

(** *** The residual functions of the least-squares notebook *)

(** What a call does when indexing can fail as well. *)
Inductive np_outcome (T : Type) : Type :=
  | Returns of T
  | Raises of error
  | RaisesIndexError.

(** [f(w) = y - np.dot(X, w)] *)
Definition f_plain (X : ndarray2 F) (y w : vec F) : result (vec F) :=
  try Xw := matmul X w in bcast1 (fun a b => a - b) y Xw.

(** [f(w) = y - np.dot(X, w[:-1]) - w[-1]]: the product and the first
    difference are taken before [w[-1]] is read. *)
Definition f_intercept (X : ndarray2 F) (y w : vec F)
  : np_outcome (vec F) :=
  match f_plain X y (take (size w).-1 w) with
  | Err e => Raises (vec F) e
  | Ok r =>
      if w is [::] then RaisesIndexError (vec F)
      else Returns [seq t - last 0 w | t <- r]
  end.



(** *** The logistic-regression notebook *)

(** [X = X[y < 2]] and [y = y[y < 2]]: a boolean index must be as long as
    the array it selects from. *)
Definition bool_index (T : Type) (m : seq bool) (s : seq T)
  : np_outcome (seq T) :=
  if size m == size s then Returns (mask m s) else RaisesIndexError (seq T).

(** The preparation cell: the first two features, the samples of the
    classes below 2, a column of ones, and the label 0 turned into -1. *)
Definition binary_prep (data : ndarray2 F) (target : seq int)
  : np_outcome (ndarray2 F * seq int) :=
  let X := NdArray2 ((shape2 data).1, minn 2 (shape2 data).2)
                    [seq take 2 r | r <- rows2 data] in
  let keep := [seq t < 2 | t <- target] in
  match bool_index keep (rows2 X) with
  | Returns rows =>
      let X := NdArray2 (size rows, (shape2 X).2) rows in
      let y := mask keep target in
      match concat_ones X (shape2 X).1 with
      | Ok X => Returns (X, [seq if t == 0 then -1 else t | t <- y])
      | Err e => Raises (ndarray2 F * seq int) e
      end
  | Raises e => Raises (ndarray2 F * seq int) e
  | RaisesIndexError => RaisesIndexError (ndarray2 F * seq int)
  end.

(** [np.sign(np.dot(X, w)) - y] *)
Definition sign_check (X : ndarray2 F) (y w : vec F) : result (vec F) :=
  try z := matmul X w in
  bcast1 (fun a b => a - b) [seq Num.sg t | t <- z] y.

End Cells.

Section Logistic.

Variable F : realFieldType.

(** The exponential and the logarithm of the array library, as total
    functions on the field: no rounding and no overflow. *)
Variables (exp log : F -> F).

(** [f(w)] of the logistic notebook: it returns the objective and appends
    it to the module-level list [all_pobj]; a call that raises appends
    nothing. *)
Definition f_logistic (X : ndarray2 F) (y : vec F) (all_pobj : seq F)
    (w : vec F) : result F * seq F :=
  match (try z := matmul X w in
         try m := bcast1 *%R [seq - t | t <- y] z in
         Ok (sumv [seq log (1 + exp t) | t <- m])) with
  | Ok pobj => (Ok pobj, rcons all_pobj pobj)
  | Err e => (Err e, all_pobj)
  end.

(** [fprime(w)] *)
Definition fprime_logistic (X : ndarray2 F) (y w : vec F)
  : result (vec F) :=
  try z := matmul X w in
  try ywTx := bcast1 *%R y z in
  let temp := [seq 1 / (1 + exp t) | t <- ywTx] in
  try yt := bcast1 *%R y temp in
  try g := matmul (np_T X) yt in
  Ok [seq - t | t <- g].

(** A sequence of calls of [f], each in the state the one before left. *)
Fixpoint f_calls (X : ndarray2 F) (y : vec F) (all_pobj : seq F)
    (ws : seq (vec F)) : seq (result F) * seq F :=
  match ws with
  | [::] => ([::], all_pobj)
  | w :: ws' =>
      let: (r, log1) := f_logistic X y all_pobj w in
      let: (rs, log2) := f_calls X y log1 ws' in
      (r :: rs, log2)
  end.

End Logistic.

(** The values of the calls that returned, in the order of the calls. *)
Definition returned (T : Type) (rs : seq (result T)) : seq T :=
  pmap (fun r => if r is Ok v then Some v else None) rs.

(** ** Name resolution in the driver *)

(** [sparse_ridge] once more, with every occurrence of a name looked up
    the way Python does: a name a function declares (a parameter, or the
    target of an assignment or of a [def] in its body) lives in the frame
    of that function; any other name is looked up in the frames of the
    enclosing functions, and at last in the module.  The names
    [LinearOperator] and [sparse] are the imported libraries, as in the
    driver above. *)
Section Scopes.

Variable F : realFieldType.
Variable info : Type.
Variable cg : linear_operator F -> vec F -> option (vec F)
              -> result (vec F * info).

(** The names that occur in [sparse_ridge] and its nested [matvec]. *)
Inductive name : Type :=
  | N_X | N_y | N_alpha | N_x0 | N_n_features | N_matvec | N_A
  | N_w_hat | N_info | N_w.

Definition name_code (n : name) : nat :=
  match n with
  | N_X => 0 | N_y => 1 | N_alpha => 2 | N_x0 => 3 | N_n_features => 4
  | N_matvec => 5 | N_A => 6 | N_w_hat => 7 | N_info => 8 | N_w => 9
  end.

Definition same_name (a b : name) : bool := name_code a == name_code b.

(** What a name can be bound to. *)
Inductive value : Type :=
  | V_matrix of spmatrix F
  | V_array of vec F
  | V_float of F
  | V_int of nat
  | V_None
  | V_function of (vec F -> result (vec F))
  | V_operator of linear_operator F
  | V_info of info.

(** The bindings of a scope, the latest first. *)
Definition scope : Type := seq (name * value).

Fixpoint lookup (n : name) (s : scope) : option value :=
  match s with
  | [::] => None
  | (m, v) :: s' => if same_name m n then Some v else lookup n s'
  end.

(** The frame of a running function: the names it declares and what
    they are bound to so far. *)
Record frame : Type := Frame {
  declared : seq name;
  bound : scope
}.

Definition assign (n : name) (v : value) (fr : frame) : frame :=
  Frame (declared fr) ((n, v) :: bound fr).

(** Reading a name: the innermost frame that declares it, bound or not;
    the module when no frame declares it. *)
Fixpoint resolve (n : name) (frames : seq frame) (module : scope)
  : result value :=
  match frames with
  | fr :: frames' =>
      if has (same_name n) (declared fr) then
        if lookup n (bound fr) is Some v then Ok v else Err NameError
      else resolve n frames' module
  | [::] => if lookup n module is Some v then Ok v else Err NameError
  end.

(** The kinds of value the operations of the driver need. *)
Definition as_matrix (r : result value) : result (spmatrix F) :=
  try v := r in if v is V_matrix X then Ok X else Err TypeError.
Definition as_array (r : result value) : result (vec F) :=
  try v := r in if v is V_array a then Ok a else Err TypeError.
Definition as_float (r : result value) : result F :=
  try v := r in if v is V_float a then Ok a else Err TypeError.
Definition as_int (r : result value) : result nat :=
  try v := r in if v is V_int k then Ok k else Err TypeError.
Definition as_function (r : result value)
  : result (vec F -> result (vec F)) :=
  try v := r in if v is V_function f then Ok f else Err TypeError.
Definition as_operator (r : result value) : result (linear_operator F) :=
  try v := r in if v is V_operator A then Ok A else Err TypeError.
Definition as_start (r : result value) : result (option (vec F)) :=
  try v := r in
  match v with
  | V_None => Ok None
  | V_array a => Ok (Some a)
  | _ => Err TypeError
  end.

Definition matvec_names : seq name := [:: N_w].
Definition sparse_ridge_names : seq name :=
  [:: N_X; N_y; N_alpha; N_x0; N_n_features; N_matvec; N_A; N_w_hat; N_info].

(** A call of the nested [matvec]: [X.T.dot(X.dot(w)) + alpha * w], in
    the frame of the call, inside the frame of the enclosing call of
    [sparse_ridge]. *)
Definition matvec_nested (enclosing : frame) (module : scope) (w : vec F)
  : result (vec F) :=
  let frames := [:: Frame matvec_names [:: (N_w, V_array w)]; enclosing] in
  try X1 := as_matrix (resolve N_X frames module) in
  try X2 := as_matrix (resolve N_X frames module) in
  try w1 := as_array (resolve N_w frames module) in
  try Xw := spdot X2 w1 in
  try XtXw := spdot (transpose X1) Xw in
  try a := as_float (resolve N_alpha frames module) in
  try w2 := as_array (resolve N_w frames module) in
  Ok (addv XtXw (scalev a w2)).

(** A call of [sparse_ridge] in the module state [module].  The nested
    function keeps the frame it was defined in; no later statement of the
    body assigns [X] or [alpha]. *)
Definition sparse_ridge_scoped (module : scope) (X : spmatrix F) (y : vec F)
    (alpha : F) (x0 : option (vec F)) : result (vec F) :=
  let fr := Frame sparse_ridge_names
              [:: (N_x0, if x0 is Some a then V_array a else V_None);
                  (N_alpha, V_float alpha); (N_y, V_array y);
                  (N_X, V_matrix X)] in
  (* n_features = X.shape[1] *)
  try X1 := as_matrix (resolve N_X [:: fr] module) in
  let fr := assign N_n_features (V_int (ncols X1)) fr in
  (* def matvec(w): ... *)
  let fr := assign N_matvec (V_function (matvec_nested fr module)) fr in
  (* A = LinearOperator((n_features, n_features), matvec=matvec, ...) *)
  try n1 := as_int (resolve N_n_features [:: fr] module) in
  try n2 := as_int (resolve N_n_features [:: fr] module) in
  try mv := as_function (resolve N_matvec [:: fr] module) in
  try X2 := as_matrix (resolve N_X [:: fr] module) in
  let fr := assign N_A (V_operator (LinearOperator (n1, n2) mv)) fr in
  (* w_hat, info = sparse.linalg.cg(A, X.T.dot(y), x0=x0) *)
  try A := as_operator (resolve N_A [:: fr] module) in
  try X3 := as_matrix (resolve N_X [:: fr] module) in
  try y1 := as_array (resolve N_y [:: fr] module) in
  try b := spdot (transpose X3) y1 in
  try start := as_start (resolve N_x0 [:: fr] module) in
  try sol := cg A b start in
  let fr := assign N_info (V_info sol.2) (assign N_w_hat (V_array sol.1) fr) in
  (* return w_hat *)
  as_array (resolve N_w_hat [:: fr] module).

(** A call of the module-level [matvec]: it declares [w] only, and no
    function encloses it. *)
Definition matvec_scoped (module : scope) (w : vec F) : result (vec F) :=
  matvec_nested (Frame [::] [::]) module w.

(** The module that binds the four names of the state [g]. *)
Definition module_of (g : globals F) : scope :=
  [:: (N_n_features, V_int (g_n_features g)); (N_alpha, V_float (g_alpha g));
      (N_y, V_array (g_y g)); (N_X, V_matrix (g_X g))].

End Scopes.

(** ** The operator in double precision *)

(** The nested [matvec] on IEEE binary64 numbers, the arithmetic of the
    notebooks: every sum and every product is rounded to the nearest
    double. *)
Module Float64.

Definition vec : Type := seq float.

(** Element-wise sum of two arrays, and [a * v] for a scalar [a]. *)
Definition addv (u v : vec) : vec :=
  [seq PrimFloat.add p.1 p.2 | p <- zip u v].

Definition scalev (a : float) (v : vec) : vec :=
  [seq PrimFloat.mul a x | x <- v].

(** Modelled from the spec: the sparse matrix type of the array library,
    in coordinate form (section 3), with doubles for values. *)
Record spmatrix : Type := SpMatrix {
  nrows : nat;
  ncols : nat;
  entries : seq (nat * nat * float)
}.

(** [X.T] *)
Definition transpose (X : spmatrix) : spmatrix :=
  SpMatrix (ncols X) (nrows X) [seq (e.1.2, e.1.1, e.2) | e <- entries X].

(** Modelled from the spec: coordinate [i] of the product [X w], the
    terms of the stored entries of row [i] added one after the other to
    zero, in the order of storage. *)
Definition row_sum (X : spmatrix) (w : vec) (i : nat) : float :=
  foldl (fun acc e =>
           if e.1.1 == i
           then PrimFloat.add acc (PrimFloat.mul e.2 (nth PrimFloat.zero w e.1.2))
           else acc)
        PrimFloat.zero (entries X).

Definition spmv (X : spmatrix) (w : vec) : vec :=
  mkseq (row_sum X w) (nrows X).

(** [X.dot(w)]: the product, after the shape test. *)
Definition spdot (X : spmatrix) (w : vec) : result vec :=
  if size w == ncols X then Ok (spmv X w) else Err DimensionMismatch.

(** [X.T.dot(X.dot(w)) + alpha * w] *)
Definition ridge_matvec (X : spmatrix) (alpha : float) (w : vec)
  : result vec :=
  try Xw := spdot X w in
  try XtXw := spdot (transpose X) Xw in
  Ok (addv XtXw (scalev alpha w)).

End Float64.

(** Small data for the cells around the drivers. *)
Module Cases.

(** One feature, two samples [x = 0] and [x = 1], stored without the
    zero. *)
Definition X_col : spmatrix rat := SpMatrix 2 1 [:: (1%N, 0%N, 1)].

Definition X_col_twos : spmatrix rat :=
  SpMatrix 2 2 [:: (1%N, 0%N, 1); (0%N, 1%N, 2%:R); (1%N, 1%N, 2%:R)].

Definition y_twos : vec rat := [:: 3%:R / 2%:R; 4%:R].

(** The same feature as a dense array, and targets on the line
    [y = 2 x + 1]. *)
Definition X_dense : ndarray2 rat := NdArray2 (2%N, 1%N) [:: [:: 0]; [:: 1]].
Definition X_dense_ones : ndarray2 rat :=
  NdArray2 (2%N, 2%N) [:: [:: 0; 1]; [:: 1; 1]].
Definition y_dense : vec rat := [:: 1; 3%:R].

(** Three samples of three features, one of each class. *)
Definition iris_data : ndarray2 rat :=
  NdArray2 (3%N, 3%N) [:: [:: 1; 0; 2%:R]; [:: 0; 1; 2%:R]; [:: 1; 1; 0]].
Definition iris_target : seq int := [:: 0; 1; 2%:R].

(** The two samples above with labels -1 and 1, and a direction that
    separates them. *)
Definition y_pm : vec rat := [:: -1; 1].
Definition u_sep : vec rat := [:: 2%:R; -1].

(** The two-by-two identity, and the iterate of one pass of conjugate
    gradient on [diag(1, 4) w = [1, 2]] from zero. *)
Definition X_eye2 : spmatrix rat :=
  SpMatrix 2 2 [:: (0%N, 0%N, 1); (1%N, 1%N, 1)].
Definition x_one_pass : vec rat := [:: 5%:R / 17%:R; 10%:R / 17%:R].


(** A positive function in the place of the exponential. *)
Definition exp_ex (t : rat) : rat := 1 + t * t.
Definition log_ex (t : rat) : rat := t.

End Cases.

(** * Properties *)

(** ** Decidable equality of errors, statuses and results *)

Lemma error_natK : cancel error_to_nat nat_to_error.
Proof. by case. Qed.

HB.instance Definition _ := Equality.copy error (can_type error_natK).

Lemma result_sumK (T : Type) : cancel (@result_to_sum T) (@sum_to_result T).
Proof. by case. Qed.

HB.instance Definition _ (T : eqType) :=
  Equality.copy (result T) (can_type (@result_sumK T)).

Lemma status_natK : cancel status_to_nat nat_to_status.
Proof. by case. Qed.

HB.instance Definition _ := Equality.copy status (can_type status_natK).

Lemma cg_state_tupleK (F : realFieldType) :
  cancel (@cg_state_to_tuple F) (@tuple_to_cg_state F).
Proof. by case. Qed.

HB.instance Definition _ (F : realFieldType) :=
  Equality.copy (cg_state F) (can_type (@cg_state_tupleK F)).

(** ** Vectors *)

Section VectorFacts.

Variable F : realFieldType.
Implicit Types (u v w : vec F) (a b c : F) (i j n : nat).

Lemma size_zeros n : size (zeros F n) = n.
Proof. by rewrite size_nseq. Qed.

Lemma size_scalev a v : size (scalev a v) = size v.
Proof. by rewrite size_map. Qed.

Lemma size_addv u v : size (addv u v) = minn (size u) (size v).
Proof. by rewrite size_map size_zip. Qed.

Lemma size_subv u v : size (subv u v) = minn (size u) (size v).
Proof. by rewrite size_map size_zip. Qed.

Lemma size_addv_eq n u v : size u = n -> size v = n -> size (addv u v) = n.
Proof. by move=> su sv; rewrite size_addv su sv minnn. Qed.

Lemma size_subv_eq n u v : size u = n -> size v = n -> size (subv u v) = n.
Proof. by move=> su sv; rewrite size_subv su sv minnn. Qed.

Lemma nth_zeros n i : nth 0 (zeros F n) i = 0.
Proof. by rewrite nth_nseq; case: ifP. Qed.

Lemma nth_scalev a v i : nth 0 (scalev a v) i = a * nth 0 v i.
Proof.
case: (ltnP i (size v)) => [lt_i|le_i]; first by rewrite (nth_map 0).
by rewrite !nth_default ?size_scalev // mulr0.
Qed.

Lemma nth_addv u v i :
  size u = size v -> nth 0 (addv u v) i = nth 0 u i + nth 0 v i.
Proof.
move=> suv; case: (ltnP i (size u)) => [lt_i|le_i].
  rewrite (nth_map (0, 0)) ?size_zip -?suv ?minnn //.
  by rewrite nth_zip.
by rewrite !nth_default ?size_addv -?suv ?minnn // addr0.
Qed.

Lemma nth_subv u v i :
  size u = size v -> nth 0 (subv u v) i = nth 0 u i - nth 0 v i.
Proof.
move=> suv; case: (ltnP i (size u)) => [lt_i|le_i].
  rewrite (nth_map (0, 0)) ?size_zip -?suv ?minnn //.
  by rewrite nth_zip.
by rewrite !nth_default ?size_subv -?suv ?minnn // subr0.
Qed.


Lemma nth_addv_scalev u a v i :
  size u = size v ->
  nth 0 (addv u (scalev a v)) i = nth 0 u i + a * nth 0 v i.
Proof. by move=> suv; rewrite nth_addv ?size_scalev // nth_scalev. Qed.

(** Two arrays of one length with the same coordinates are equal. *)
Lemma vec_eqP n u v :
  size u = n -> size v = n ->
  (forall i, (i < n)%N -> nth 0 u i = nth 0 v i) -> u = v.
Proof.
move=> su sv eq_uv; apply: (@eq_from_nth _ 0); first by rewrite su sv.
by move=> i; rewrite su; apply: eq_uv.
Qed.

(** The dot product as a sum over the coordinates. *)
Lemma dotvE n u v :
  size u = n -> size v = n -> dotv u v = \sum_(i < n) nth 0 u i * nth 0 v i.
Proof.
elim: n u v => [|n IH] [|x u] [|y v] //= su sv; first by rewrite big_ord0.
rewrite /dotv /= big_ord_recl /=; congr (_ + _).
by apply: IH; [case: su | case: sv].
Qed.


End VectorFacts.

(** ** Sparse products *)

Section SparseFacts.

Variable F : realFieldType.
Implicit Types (X : spmatrix F) (u v w : vec F) (a b c : F) (i j n : nat).

Lemma row_sumE X w i :
  row_sum X w i = \sum_(e <- entries X | e.1.1 == i) e.2 * nth 0 w e.1.2.
Proof.
rewrite /row_sum; elim: (entries X) => [|e es IH] /=; first by rewrite big_nil.
by rewrite big_cons IH.
Qed.

Lemma size_spmv X w : size (spmv X w) = nrows X.
Proof. by rewrite size_mkseq. Qed.

Lemma nth_spmv X w i : (i < nrows X)%N -> nth 0 (spmv X w) i = row_sum X w i.
Proof. by move=> lt_i; rewrite nth_mkseq. Qed.

Lemma spdot_ok X w : size w = ncols X -> spdot X w = Ok (spmv X w).
Proof. by rewrite /spdot => ->; rewrite eqxx. Qed.

Lemma spdot_err X w : size w != ncols X -> spdot X w = Err DimensionMismatch.
Proof. by rewrite /spdot => /negbTE ->. Qed.



(** The dense matrix of the transpose. *)
Lemma dense_transpose X i j : dense (transpose X) j i = dense X i j.
Proof.
rewrite /dense /transpose /= big_map /=.
by apply: eq_bigl => e; rewrite andbC.
Qed.

(** A row of the product, read off the dense matrix. *)
Lemma row_sum_dense X w i :
  size w = ncols X ->
  row_sum X w i = \sum_(k < ncols X) dense X i k * nth 0 w k.
Proof.
move=> sw; rewrite row_sumE /dense.
under [RHS]eq_bigr => k _ do rewrite mulr_suml.
rewrite (exchange_big_dep (fun e => e.1.1 == i)) /=.
  by move=> k e _ /andP[].
apply: eq_bigr => e /eqP e_i; rewrite e_i eqxx /=.
case: (ltnP e.1.2 (ncols X)) => [lt_k|le_k].
  by rewrite (big_pred1 (Ordinal lt_k)).
rewrite nth_default ?sw // mulr0 big1 // => k /eqP e_k.
by move: le_k; rewrite e_k leqNgt ltn_ord.
Qed.

End SparseFacts.

(** Length goals on sums, differences, multiples and products. *)
Ltac vsize :=
  repeat first
    [ done
    | rewrite size_scalev
    | rewrite size_zeros
    | rewrite size_spmv
    | apply: size_addv_eq
    | apply: size_subv_eq ].


(** ** The matvec functions of the notebook *)

Section MatvecFacts.

Variable F : realFieldType.
Implicit Types (X : spmatrix F) (u v w : vec F) (a b c alpha : F).
Implicit Types (i j n : nat) (g : globals F).

(** [X^T (X w)], without the shape tests. *)
Local Notation gram X w := (spmv (transpose X) (spmv X w)).

Lemma size_gram X w : size (gram X w) = ncols X.
Proof. by rewrite size_spmv. Qed.

Lemma ridge_matvec_ok X alpha w :
  size w = ncols X ->
  ridge_matvec X alpha w = Ok (addv (gram X w) (scalev alpha w)).
Proof.
move=> sw; rewrite /ridge_matvec spdot_ok //= spdot_ok //=.
by rewrite size_spmv.
Qed.

Lemma ridge_matvec_err X alpha w :
  size w != ncols X -> ridge_matvec X alpha w = Err DimensionMismatch.
Proof. by move=> sw; rewrite /ridge_matvec spdot_err. Qed.

Lemma size_ridge_matvec X alpha w r :
  ridge_matvec X alpha w = Ok r -> size r = ncols X.
Proof.
case: (eqVneq (size w) (ncols X)) => [sw|sw]; last by rewrite ridge_matvec_err.
rewrite ridge_matvec_ok // => -[<-].
by apply: size_addv_eq; rewrite ?size_gram ?size_scalev.
Qed.

(** The module-level function is the nested one at the globals. *)
Lemma matvec_globals g w : matvec g w = ridge_matvec (g_X g) (g_alpha g) w.
Proof. by []. Qed.

(** Coordinates of [X^T (X w)] in terms of the dense matrix. *)
Lemma nth_gram X w j :
  size w = ncols X -> (j < ncols X)%N ->
  nth 0 (gram X w) j
  = \sum_(i < nrows X) dense X i j * (\sum_(k < ncols X) dense X i k * nth 0 w k).
Proof.
move=> sw lt_j; rewrite nth_spmv // row_sum_dense ?size_spmv //=.
apply: eq_bigr => i _; rewrite dense_transpose nth_spmv //.
by rewrite row_sum_dense.
Qed.



End MatvecFacts.

(** ** The ridge driver *)

Section RidgeFacts.

Variable F : realFieldType.
Implicit Types (X : spmatrix F) (u v w y : vec F) (a b c alpha : F).
Implicit Types (i j n : nat) (g : globals F).

Local Notation gram X w := (spmv (transpose X) (spmv X w)).


Section Solver.

Variable info : Type.
Variable cg :
  linear_operator F -> vec F -> option (vec F) -> result (vec F * info).

(** C2: for [X] of shape [n_samples x n_features] and [y] of length
    [n_samples], the driver's operator maps every [w] of length
    [n_features] to [X^T (X w) + alpha w], the right-hand side is [X^T y],
    and the solution returned is the solver's at exactly this operator,
    right-hand side and [x0]. *)
Theorem sparse_ridge_delegates g X y alpha (x0 : option (vec F)) :
  size y = nrows X ->
  let A := LinearOperator (ncols X, ncols X) (ridge_matvec X alpha) in
  let b := spmv (transpose X) y in
  [/\ forall w, size w = ncols X ->
        apply A w = Ok (addv (gram X w) (scalev alpha w)),
      forall w j, size w = ncols X -> (j < ncols X)%N ->
        nth 0 (addv (gram X w) (scalev alpha w)) j
        = \sum_(i < nrows X)
             dense X i j * (\sum_(k < ncols X) dense X i k * nth 0 w k)
          + alpha * nth 0 w j,
      forall j, (j < ncols X)%N ->
        nth 0 b j = \sum_(i < nrows X) dense X i j * nth 0 y i
    & sparse_ridge cg g X y alpha x0 = try sol := cg A b x0 in Ok sol.1].
Proof.
move=> sy A b; split.
- by move=> w sw; rewrite /apply /= sw eqxx ridge_matvec_ok.
- move=> w j sw lt_j; rewrite nth_addv_scalev ?nth_gram //.
  by rewrite size_spmv.
- move=> j lt_j; rewrite /b nth_spmv // row_sum_dense //=.
  by apply: eq_bigr => i _; rewrite dense_transpose.
- rewrite /sparse_ridge spdot_ok //= -/A -/b.
  by case: (cg A b x0) => [[w_hat i]|e].
Qed.

(** The driver with its names resolved is the driver above: every name
    it reads is found in its own frame or, for the nested [matvec], in the
    frame of the enclosing call. *)
Lemma sparse_ridge_scoped_shallow (m : scope F info) g X y alpha
    (x0 : option (vec F)) :
  sparse_ridge_scoped cg m X y alpha x0 = sparse_ridge cg g X y alpha x0.
Proof.
rewrite /sparse_ridge_scoped /sparse_ridge /=.
set mv := matvec_nested _ _; have -> : mv = ridge_matvec X alpha by [].
case: (spdot _ _) => [b|e] //=; case: x0 {mv} => [a|] /=.
  by case: (cg _ b (Some a)) => [[w_hat i]|e].
by case: (cg _ b None) => [[w_hat i]|e].
Qed.

(** The module-level [matvec], by contrast, reads [X] and [alpha] in the
    module: it is the function of the state above, and fails where the
    module does not bind them. *)
Lemma matvec_scoped_globals g w :
  matvec_scoped (module_of info g) w = matvec g w.
Proof. by []. Qed.

Lemma matvec_scoped_unbound w :
  matvec_scoped ([::] : scope F info) w = Err NameError.
Proof. by []. Qed.


(** C1, as amended: the drivers return the solution only.
    [sparse_ridge] returns the first component of what the solver
    returns, [sparse_ridge_intercept] the two coordinates of that
    component, and rewriting the solver's convergence status in any way
    changes neither result. *)
Theorem drivers_return_solution_only (info' : Type) (f : info -> info')
    g X y alpha (x0 : option (vec F)) :
  [/\ sparse_ridge cg g X y alpha x0
      = try b := spdot (transpose X) y in
        try sol := cg (LinearOperator (ncols X, ncols X)
                         (ridge_matvec X alpha)) b x0 in
        Ok sol.1,
      sparse_ridge_intercept cg g X y alpha x0
      = try b := spdot (transpose X) y in
        try sol := cg (LinearOperator (ncols X, ncols X)
                         (intercept_matvec X alpha)) b x0 in
        if sol.1 is [:: w_hat; b_hat] then Ok (w_hat, b_hat)
        else Err UnpackError,
      sparse_ridge (relabel cg f) g X y alpha x0
      = sparse_ridge cg g X y alpha x0
    & sparse_ridge_intercept (relabel cg f) g X y alpha x0
      = sparse_ridge_intercept cg g X y alpha x0].
Proof.
split.
- rewrite /sparse_ridge; case: (spdot _ _) => [b|e] //=.
  by case: (cg _ b x0) => [[w_hat i]|e].
- rewrite /sparse_ridge_intercept subrK /=.
  case: (spdot _ _) => [b|e] //=.
  by case: (cg _ b x0) => [[w_hat i]|e].
- rewrite /sparse_ridge /relabel; case: (spdot _ _) => [b|e] //=.
  by case: (cg _ b x0) => [[w_hat i]|e].
- rewrite /sparse_ridge_intercept /relabel; case: (spdot _ _) => [b|e] //=.
  by case: (cg _ b x0) => [[w_hat i]|e].
Qed.

End Solver.

End RidgeFacts.

(** C9: for [X = [[1,0],[0,2]]] and [alpha = 0], the implicit operator
    maps [w = [1,1]] to [[1,4]]. *)
Theorem matvec_diag12 :
  matvec Examples.g_nb [:: 1; 1] = Ok [:: 1; 4%:R].
Proof. by apply/eqP; vm_compute. Qed.



Lemma sparse_ridge_delegates_witness :
  let A := LinearOperator (1%N, 1%N) (ridge_matvec Examples.X_one 0) in
  let b := spmv (transpose Examples.X_one) Examples.y_one in
  sparse_ridge (library_cg Examples.tol_ex 10) Examples.g_nb
    Examples.X_one Examples.y_one 0 None
  = try sol := library_cg Examples.tol_ex 10 A b None in Ok sol.1.
Proof.
by case: (@sparse_ridge_delegates _ _ (library_cg Examples.tol_ex 10)
            Examples.g_nb Examples.X_one Examples.y_one 0 None (erefl _)).
Defined.

(** The module-level [matvec], by contrast, does read the globals. *)
Lemma matvec_reads_globals :
  matvec Examples.g_nb [:: 1; 1] != matvec Examples.g_other [:: 1; 1].
Proof. by vm_compute. Qed.

(** C1, counterexample.  First, one call: on the one-by-one system
    [w = 1] the solver ends with [Converged] from the zero start and
    [sparse_ridge] returns [[1]], the bare vector; the same solver
    reporting [MaxIterReached] with the same vector makes [sparse_ridge]
    return the same [[1]], so no function of what the driver returns
    gives the status of the solve.  Second, two calls with a solver whose
    budget is one pass: on [X = [[1,0],[0,2]]], [y = [1,1]] it stops with
    [MaxIterReached] at [[5/17, 10/17]], on the identity with that vector
    as [y] it ends with [Converged] at the same vector, and [sparse_ridge]
    returns the same value for both. *)
Lemma sparse_ridge_drops_status :
  (let A := LinearOperator (1%N, 1%N) (ridge_matvec Examples.X_one 0) in
   let b := spmv (transpose Examples.X_one) Examples.y_one in
   let cg := library_cg Examples.tol_ex 10 in
   let cg' := relabel cg (fun=> MaxIterReached) in
   [/\ cg A b None = Ok ([:: 1], Converged),
       cg' A b None = Ok ([:: 1], MaxIterReached),
       sparse_ridge cg Examples.g_nb Examples.X_one Examples.y_one 0 None
       = Ok [:: 1],
       sparse_ridge cg' Examples.g_nb Examples.X_one Examples.y_one 0 None
       = Ok [:: 1]
     & ~ exists status_of : result (vec rat) -> status,
         forall solver w st,
           solver A b None = Ok (w, st) ->
           status_of (sparse_ridge solver Examples.g_nb Examples.X_one
                        Examples.y_one 0 None) = st])
  /\ (let cg := library_cg Examples.tol_ex 1 in
      let A := LinearOperator (2%N, 2%N) (ridge_matvec Examples.X_diag12 0) in
      let b := spmv (transpose Examples.X_diag12) [:: 1; 1] in
      let A' := LinearOperator (2%N, 2%N) (ridge_matvec Cases.X_eye2 0) in
      let b' := spmv (transpose Cases.X_eye2) Cases.x_one_pass in
      [/\ cg A b None = Ok (Cases.x_one_pass, MaxIterReached),
          cg A' b' None = Ok (Cases.x_one_pass, Converged),
          sparse_ridge cg Examples.g_nb Examples.X_diag12 [:: 1; 1] 0 None
          = Ok Cases.x_one_pass
        & sparse_ridge cg Examples.g_nb Cases.X_eye2 Cases.x_one_pass 0 None
          = Ok Cases.x_one_pass]).
Proof.
split.
  move=> A b cg cg'.
  have run : cg A b None = Ok ([:: 1], Converged) by apply/eqP; vm_compute.
  have run' : cg' A b None = Ok ([:: 1], MaxIterReached).
    by rewrite /cg' /relabel run.
  have out : sparse_ridge cg Examples.g_nb Examples.X_one Examples.y_one 0
               None = Ok [:: 1] by apply/eqP; vm_compute.
  have out' : sparse_ridge cg' Examples.g_nb Examples.X_one Examples.y_one 0
                None = Ok [:: 1] by apply/eqP; vm_compute.
  split=> // -[status_of H].
  by have := H _ _ _ run; have := H _ _ _ run'; rewrite out out' => ->.
by move=> cg A b A' b'; split; apply/eqP; vm_compute.
Qed.

(** ** The driver with an intercept column *)

Section InterceptFacts.

Variable F : realFieldType.
Implicit Types (X Xb : spmatrix F) (d u v w y : vec F) (a b c alpha : F).
Implicit Types (i j n : nat) (g : globals F).

Local Notation gram X w := (spmv (transpose X) (spmv X w)).

(** [n_features + 1] is the number of columns again. *)
Lemma n_features_succ n : absz (n%:Z - 1 + 1) = n.
Proof. by rewrite subrK. Qed.

(** The regularization diagonal: [alpha] on the features, zero on the
    last coordinate. *)
Lemma alpha_diagE n alpha :
  set_prefix (zeros F (absz (n%:Z - 1 + 1))) (n%:Z - 1) alpha
  = nseq n.-1 alpha ++ nseq (n != 0%N) 0.
Proof.
rewrite n_features_succ /set_prefix size_zeros.
case: n => [|n]; first by [].
have -> : n.+1%:Z - 1 = n%:Z :> int by rewrite intS addrC addKr.
rewrite /slice_stop; have /minn_idPl -> := leqnSn n.
by rewrite /zeros drop_nseq subSnn.
Qed.

Lemma size_alpha_diag n alpha :
  size (set_prefix (zeros F (absz (n%:Z - 1 + 1))) (n%:Z - 1) alpha) = n.
Proof.
rewrite alpha_diagE size_cat !size_nseq.
by case: n => [|n] //=; rewrite addn1.
Qed.

Lemma nth_alpha_diag n alpha i :
  nth 0 (set_prefix (zeros F (absz (n%:Z - 1 + 1))) (n%:Z - 1) alpha) i
  = if (i < n.-1)%N then alpha else 0.
Proof.
rewrite alpha_diagE nth_cat size_nseq; case: ifP => lt_i.
  by rewrite nth_nseq lt_i.
by rewrite nth_nseq; case: ifP.
Qed.

(** A row of [np.diag(d)] against [w] picks one coordinate. *)
Lemma dotv_diag_row d w i :
  size w = size d -> (i < size d)%N ->
  dotv (mkseq (fun j => if i == j then nth 0 d i else 0) (size d)) w
  = nth 0 d i * nth 0 w i.
Proof.
move=> sw lt_i; rewrite (@dotvE _ (size d)) ?size_mkseq //.
rewrite (bigD1 (Ordinal lt_i)) //= nth_mkseq // eqxx big1 ?addr0 //.
move=> j ne_j; rewrite nth_mkseq //.
have /negbTE -> : i != j.
  by apply: contra ne_j => /eqP ij; apply/eqP/val_inj.
by rewrite mul0r.
Qed.

Lemma matmul_diag d w :
  size w = size d ->
  matmul (np_diag d) w
  = Ok (mkseq (fun i => nth 0 d i * nth 0 w i) (size d)).
Proof.
move=> sw; rewrite /matmul /= sw eqxx; congr Ok.
apply: (@eq_from_nth _ 0); first by rewrite size_map !size_mkseq.
move=> i; rewrite size_map size_mkseq => lt_i.
rewrite (nth_map [::]) ?size_mkseq // !nth_mkseq //.
exact: dotv_diag_row.
Qed.

Lemma intercept_matvec_ok Xb alpha w :
  size w = ncols Xb ->
  intercept_matvec Xb alpha w
  = Ok (addv (gram Xb w)
          (mkseq (fun i => (if (i < (ncols Xb).-1)%N then alpha else 0)
                           * nth 0 w i) (ncols Xb))).
Proof.
move=> sw; rewrite /intercept_matvec spdot_ok //= spdot_ok ?size_spmv //=.
rewrite matmul_diag size_alpha_diag //=; congr (Ok (addv _ _)).
by apply: eq_mkseq => i; rewrite nth_alpha_diag.
Qed.

Lemma intercept_matvec_err Xb alpha w :
  size w != ncols Xb -> intercept_matvec Xb alpha w = Err DimensionMismatch.
Proof. by move=> sw; rewrite /intercept_matvec spdot_err. Qed.

End InterceptFacts.

(** ** The solver: lengths, errors and early termination *)

Section SolverFacts.

Variable F : realFieldType.
Implicit Types (A : linear_operator F) (u v w b : vec F) (tol : F).
Implicit Types (s : cg_state F) (k m n fuel : nat) (st : status).

Lemma apply_ok_size A w r : apply A w = Ok r -> size w = (op_shape A).2.
Proof. by rewrite /apply; case: eqP. Qed.

Lemma apply_err A w :
  size w != (op_shape A).2 -> apply A w = Err DimensionMismatch.
Proof. by rewrite /apply => /negbTE ->. Qed.

(** The iterate keeps the operator's dimension along the loop. *)
Lemma cg_step_continue_size A tol s s' :
  size (it_x s) = (op_shape A).2 -> cg_step A tol s = Continue s' ->
  size (it_x s') = (op_shape A).2.
Proof.
move=> sx; rewrite /cg_step.
case apE: (apply A (it_p s)) => [Ap|e] //.
case: ifP => // _; case: ifP => // _ [<-] /=.
by apply: size_addv_eq; rewrite ?size_scalev ?(apply_ok_size apE).
Qed.

Lemma cg_step_stop_size A tol s x st :
  size (it_x s) = (op_shape A).2 -> cg_step A tol s = Stop x st ->
  size x = (op_shape A).2.
Proof.
move=> sx; rewrite /cg_step.
case apE: (apply A (it_p s)) => [Ap|e] //.
case: ifP => [_ [<- _] //|_]; case: ifP => // _ [<- _].
by apply: size_addv_eq; rewrite ?size_scalev ?(apply_ok_size apE).
Qed.

Lemma cg_loop_size A tol fuel s x st k :
  size (it_x s) = (op_shape A).2 ->
  cg_loop A tol fuel s = (Ok (x, st), k) -> size x = (op_shape A).2.
Proof.
elim: fuel s k => [|fuel IH] s k sx /=; first by case=> <-.
case stE: (cg_step A tol s) => [s'|x' st'|e] //.
  case loopE: (cg_loop A tol fuel s') => [res n] [res_eq _].
  move: loopE; rewrite res_eq; apply: IH.
  exact: cg_step_continue_size stE.
by case=> <- _ _; apply: cg_step_stop_size stE.
Qed.

Lemma cg_init_size A b (x0 : option (vec F)) s :
  cg_init A b x0 = Ok s -> size (it_x s) = (op_shape A).2.
Proof.
rewrite /cg_init; case: eqP => // _.
by case apE: (apply A _) => [Ax|e] //= [<-] /=; apply: apply_ok_size apE.
Qed.

(** A solution the solver returns has the operator's dimension. *)
Lemma solve_size A b (x0 : option (vec F)) tol max_iter x st :
  solve A b x0 tol max_iter = Ok (x, st) -> size x = (op_shape A).2.
Proof.
rewrite /solve /solve_counted.
case initE: (cg_init A b x0) => [s0|e] //.
case loopE: (cg_loop A tol max_iter s0) => [res k] /= res_eq.
by move: loopE; rewrite res_eq; apply: cg_loop_size; apply: cg_init_size initE.
Qed.

Lemma cg_loopS A tol fuel s :
  cg_loop A tol fuel.+1 s
  = match cg_step A tol s with
    | Fail e => (Err e, 1%N)
    | Stop x st => (Ok (x, st), 1%N)
    | Continue s' =>
        ((cg_loop A tol fuel s').1, (cg_loop A tol fuel s').2.+1)
    end.
Proof. by rewrite /=; case: (cg_step A tol s) => // s'; case: cg_loop. Qed.

Lemma cg_runS A tol k s :
  cg_run A tol k.+1 s
  = if cg_step A tol s is Continue s' then cg_run A tol k s' else None.
Proof. by []. Qed.

(** Running [k] passes and then [m] more. *)
Lemma cg_loop_run A tol k m s0 s :
  cg_run A tol k s0 = Some s ->
  cg_loop A tol (k + m) s0
  = ((cg_loop A tol m s).1, (k + (cg_loop A tol m s).2)%N).
Proof.
elim: k s0 => [|k IH] s0; first by case=> ->; case: (cg_loop _ _ _ _).
rewrite cg_runS addSn cg_loopS.
case stE: (cg_step A tol s0) => [s'|x' st'|e] // runE.
by rewrite (IH _ runE).
Qed.

Lemma cg_run_snoc A tol k s0 :
  cg_run A tol k.+1 s0
  = if cg_run A tol k s0 is Some s
    then if cg_step A tol s is Continue s' then Some s' else None
    else None.
Proof.
elim: k s0 => [|k IH] s0; first by rewrite /=; case: (cg_step A tol s0).
rewrite cg_runS [in RHS]cg_runS.
by case: (cg_step A tol s0) => // s1; rewrite IH.
Qed.

(** The solver after a run that ends on a pass which stops without an
    update: it returns the iterate of the run. *)
Lemma solve_after_run A b (x0 : option (vec F)) tol max_iter k s0 sk st :
  cg_init A b x0 = Ok s0 ->
  cg_run A tol k s0 = Some sk ->
  cg_step A tol sk = Stop (it_x sk) st ->
  (k <= max_iter)%N ->
  exists st' passes,
    solve_counted A b x0 tol max_iter = (Ok (it_x sk, st'), passes)
    /\ (passes <= k.+1)%N.
Proof.
move=> initE runE stopE le_k; rewrite /solve_counted initE -(subnKC le_k).
rewrite (cg_loop_run _ runE); case: (max_iter - k)%N => [|m].
  by exists MaxIterReached, (k + 0)%N; rewrite addn0.
by exists st, (k + 1)%N; rewrite cg_loopS stopE addn1.
Qed.

(** *** The tolerance test *)

Lemma sqrt_lt0 (rs : F) : sqrt_lt rs 0 = false.
Proof. by rewrite /sqrt_lt ltxx. Qed.

Lemma sqrt_lt_gt0 (rs : F) tol : sqrt_lt rs tol -> 0 < tol.
Proof. by case/andP. Qed.

Lemma sqrt_lt_le0 (rs : F) tol : tol <= 0 -> sqrt_lt rs tol = false.
Proof. by move=> tol_le0; rewrite /sqrt_lt ltNge tol_le0. Qed.

(** A pass with a tolerance is the pass with the test off, followed by
    the test on the new residual. *)
Lemma cg_step_tol A tol s :
  cg_step A tol s
  = match cg_step A 0 s with
    | Continue s' =>
        if sqrt_lt (it_rs s') tol then Stop (it_x s') Converged
        else Continue s'
    | other => other
    end.
Proof.
rewrite /cg_step; case: (apply A (it_p s)) => [Ap|e] //.
by case: ifP => // _; rewrite sqrt_lt0.
Qed.

(** Along a run with the test off, the solver with a tolerance either has
    stopped on [Converged] at one of the updates, or is in the same
    state. *)
Lemma cg_run_tol A tol k s0 sk :
  cg_run A 0 k s0 = Some sk ->
  (exists j sj,
     [/\ (j <= k)%N, 0 < tol
       & forall fuel, (j <= fuel)%N ->
           cg_loop A tol fuel s0 = (Ok (it_x sj, Converged), j)])
  \/ cg_run A tol k s0 = Some sk.
Proof.
elim: k sk => [|k IH] sk; first by right.
rewrite cg_run_snoc; case runE: (cg_run A 0 k s0) => [s|] //.
case stepE: (cg_step A 0 s) => [s'|//|//] [<-].
have [[j [sj [le_j tol_gt0 loopE]]]|runE'] := IH _ runE.
  by left; exists j, sj; split=> //; apply: leqW.
have := cg_step_tol A tol s; rewrite stepE.
case: ifP => [conv|_] stepE'; last first.
  by right; rewrite cg_run_snoc runE' stepE'.
left; exists k.+1, s'; split=> //; first exact: sqrt_lt_gt0 conv.
move=> fuel lt_k; rewrite -(subnKC lt_k) addSnnS (cg_loop_run _ runE').
by rewrite cg_loopS stepE' /= addn1.
Qed.

(** C4: when the iteration reaches a direction [p] with [p . A p <= 0], the
    solve stops at that pass with status [Breakdown] and returns the
    iterate it had on entering the pass; no step size is computed. *)
Theorem breakdown_on_nonpositive_curvature A b (x0 : option (vec F)) tol
    max_iter s0 k s Ap :
  cg_init A b x0 = Ok s0 ->
  cg_run A tol k s0 = Some s ->
  (k < max_iter)%N ->
  apply A (it_p s) = Ok Ap ->
  dotv (it_p s) Ap <= 0 ->
  solve_counted A b x0 tol max_iter = (Ok (it_x s, Breakdown), k.+1).
Proof.
move=> initE runE lt_k apE curv; rewrite /solve_counted initE.
rewrite -(subnKC lt_k) addSnnS (cg_loop_run _ runE) cg_loopS.
by rewrite /cg_step apE curv /= addn1.
Qed.

(** C5: a vector whose length is not the operator's dimension is refused:
    [apply] fails with [DimensionMismatch], and so does the solver on such
    a right-hand side, before any pass of the loop and with no iterate
    returned. *)
Theorem dimension_mismatch_fails A w b (x0 : option (vec F)) tol max_iter :
  (size w != (op_shape A).2 -> apply A w = Err DimensionMismatch)
  /\ (size b != (op_shape A).2 ->
      solve_counted A b x0 tol max_iter = (Err DimensionMismatch, 0%N)).
Proof.
split; first exact: apply_err.
by rewrite /solve_counted /cg_init => /negbTE ->.
Qed.

End SolverFacts.

Lemma breakdown_on_nonpositive_curvature_witness :
  solve_counted Examples.A_zero [:: 1] None Examples.tol_ex 10
  = (Ok ([:: 0], Breakdown), 1%N).
Proof.
apply: (@breakdown_on_nonpositive_curvature _ Examples.A_zero [:: 1] None
          Examples.tol_ex 10 (CGState [:: 0] [:: 1] [:: 1] 1) 0
          (CGState [:: 0] [:: 1] [:: 1] 1) [:: 0]).
- by apply/eqP; vm_compute.
- by [].
- by [].
- by apply/eqP; vm_compute.
- by vm_compute.
Defined.

Lemma dimension_mismatch_fails_witness :
  apply Examples.A_two [:: 1; 2%:R] = Err DimensionMismatch
  /\ solve_counted Examples.A_two [:: 1; 2%:R] None Examples.tol_ex 10
     = (Err DimensionMismatch, 0%N).
Proof.
have [H1 H2] := @dimension_mismatch_fails _ Examples.A_two [:: 1; 2%:R]
                  [:: 1; 2%:R] None Examples.tol_ex 10.
by split; [apply: H1 | apply: H2].
Defined.

(** ** The intercept driver: its operator and its result *)

Section InterceptDriver.

Variable F : realFieldType.
Variable info : Type.
Variable cg :
  linear_operator F -> vec F -> option (vec F) -> result (vec F * info).

Implicit Types (Xb : spmatrix F) (w y : vec F) (alpha : F) (g : globals F).

Local Notation gram X w := (spmv (transpose X) (spmv X w)).

(** The operator [sparse_ridge_intercept] builds. *)
Local Notation intercept_op Xb alpha :=
  (LinearOperator (absz ((ncols Xb)%:Z - 1 + 1), absz ((ncols Xb)%:Z - 1 + 1))
                  (intercept_matvec Xb alpha)).

(** C3: the operator of the intercept driver, applied to [w] of length
    [n_features + 1], is [Xb^T (Xb w) + diag(alpha, ..., alpha, 0) w]:
    coordinate [i] gets [alpha * w_i] added for each of the first
    [n_features] coordinates and nothing for the last one; this is the
    operator the driver hands to the solver. *)
Theorem intercept_operator_regularization g Xb y alpha
    (x0 : option (vec F)) w :
  size w = ncols Xb ->
  exists v,
    [/\ apply (intercept_op Xb alpha) w = Ok v,
        size v = ncols Xb,
        forall i, (i < (ncols Xb).-1)%N ->
          nth 0 v i = nth 0 (gram Xb w) i + alpha * nth 0 w i,
        (0 < ncols Xb)%N ->
          nth 0 v (ncols Xb).-1 = nth 0 (gram Xb w) (ncols Xb).-1
      & sparse_ridge_intercept cg g Xb y alpha x0
        = try b := spdot (transpose Xb) y in
          try sol := cg (intercept_op Xb alpha) b x0 in
          if sol.1 is [:: w_hat; b_hat] then Ok (w_hat, b_hat)
          else Err UnpackError].
Proof.
move=> sw.
set reg := mkseq (fun i => (if (i < (ncols Xb).-1)%N then alpha else 0)
                           * nth 0 w i) (ncols Xb).
have sreg : size reg = ncols Xb by rewrite size_mkseq.
exists (addv (gram Xb w) reg); split.
- by rewrite /apply /= n_features_succ sw eqxx intercept_matvec_ok.
- by apply: size_addv_eq; rewrite ?size_spmv.
- move=> i lt_i; rewrite nth_addv ?size_spmv ?sreg //.
  have lt_i' : (i < ncols Xb)%N := leq_trans lt_i (leq_pred _).
  by rewrite /reg nth_mkseq //= lt_i.
- move=> n_pos; rewrite nth_addv ?size_spmv ?sreg //.
  have lt_last : ((ncols Xb).-1 < ncols Xb)%N by rewrite prednK.
  by rewrite /reg nth_mkseq //= ltnn mul0r addr0.
- rewrite /sparse_ridge_intercept; case: (spdot _ _) => [b|e] //=.
  by case: (cg _ b x0) => [[x i]|e].
Qed.

(** C10: [sparse_ridge_intercept] unpacks the solution into exactly two
    values.  With a solver that returns a vector of the operator's
    dimension, the call returns a pair only when [Xb] has exactly two
    columns, and whenever the solver returns on an [Xb] with another number
    of columns, three or more in particular, the call fails with an
    unpacking error. *)
Theorem intercept_unpacks_two g Xb y alpha (x0 : option (vec F)) :
  sized_solver cg ->
  (forall w_hat b_hat,
     sparse_ridge_intercept cg g Xb y alpha x0 = Ok (w_hat, b_hat) ->
     ncols Xb = 2%N)
  /\ (forall x i,
        ncols Xb != 2%N -> size y = nrows Xb ->
        cg (intercept_op Xb alpha) (spmv (transpose Xb) y) x0 = Ok (x, i) ->
        sparse_ridge_intercept cg g Xb y alpha x0 = Err UnpackError).
Proof.
move=> cg_sized; split.
- move=> w_hat b_hat; rewrite /sparse_ridge_intercept.
  case: (spdot _ _) => [b|e] //=.
  case cgE: (cg _ b x0) => [[x i]|e] //=.
  have := cg_sized _ _ _ _ _ cgE; rewrite /= n_features_succ => <-.
  by case: x {cgE} => [|x1 [|x2 [|x3 x]]].
- move=> x i ne2 sy cgE; rewrite /sparse_ridge_intercept spdot_ok //= cgE.
  have := cg_sized _ _ _ _ _ cgE; rewrite /= n_features_succ => sx.
  by move: ne2; rewrite -sx; case: x {cgE sx} => [|x1 [|x2 [|x3 x]]].
Qed.

End InterceptDriver.

Lemma intercept_operator_regularization_witness :
  exists v : vec rat,
    apply (LinearOperator (2%N, 2%N) (intercept_matvec Examples.Xb_line 1))
          [:: 1; 1] = Ok v
    /\ size v = 2%N.
Proof.
have [v [apE sv _ _ _]] :=
  @intercept_operator_regularization _ _ (library_cg Examples.tol_ex 10)
     Examples.g_nb Examples.Xb_line Examples.y_line 1 None [:: 1; 1] (erefl _).
by exists v; split.
Defined.

Lemma library_cg_sized (F : realFieldType) (tol : F) (max_iter : nat) :
  sized_solver (library_cg tol max_iter).
Proof. by move=> A b x0 x st; apply: solve_size. Qed.

Lemma intercept_unpacks_two_witness :
  ncols Examples.Xb_wide != 2%N
  /\ sparse_ridge_intercept (library_cg Examples.tol_ex 1) Examples.g_nb
       Examples.Xb_wide [:: 1; 2%:R] 1 None = Err UnpackError.
Proof.
have [_ H] := @intercept_unpacks_two _ _ (library_cg Examples.tol_ex 1)
                Examples.g_nb Examples.Xb_wide [:: 1; 2%:R] 1 None
                (@library_cg_sized _ Examples.tol_ex 1).
split; first by [].
have : is_ok (library_cg Examples.tol_ex 1
                (LinearOperator (3%N, 3%N)
                   (intercept_matvec Examples.Xb_wide 1))
                (spmv (transpose Examples.Xb_wide) [:: 1; 2%:R]) None).
  by vm_compute.
case solE: (library_cg _ _ _ _ _) => [sol|e]; last by [].
case: sol solE => x i solE _.
exact: (H x i (erefl _) (erefl _) solE).
Defined.

(** ** Row vectors: the dot product *)

Section DotFacts.

Variable F : realFieldType.
Variable n : nat.
Implicit Types (u v w : 'rV[F]_n) (a b : F) (M : 'M[F]_n).

Local Notation dot := (@dotr F n).

Lemma dotrC u v : dot u v = dot v u.
Proof. by apply: eq_bigr => i _; rewrite mulrC. Qed.

Lemma dotrDl u v w : dot (u + v) w = dot u w + dot v w.
Proof. by rewrite -big_split; apply: eq_bigr => i _; rewrite mxE mulrDl. Qed.

Lemma dotrDr w u v : dot w (u + v) = dot w u + dot w v.
Proof. by rewrite dotrC dotrDl !(dotrC w). Qed.

Lemma dotrZl a u v : dot (a *: u) v = a * dot u v.
Proof. by rewrite mulr_sumr; apply: eq_bigr => i _; rewrite mxE mulrA. Qed.

Lemma dotrZr a u v : dot u (a *: v) = a * dot u v.
Proof. by rewrite dotrC dotrZl dotrC. Qed.

Lemma dotrNl u v : dot (- u) v = - dot u v.
Proof. by rewrite -scaleN1r dotrZl mulN1r. Qed.

Lemma dotrNr u v : dot u (- v) = - dot u v.
Proof. by rewrite dotrC dotrNl dotrC. Qed.

Lemma dotrBl u v w : dot (u - v) w = dot u w - dot v w.
Proof. by rewrite dotrDl dotrNl. Qed.

Lemma dotrBr w u v : dot w (u - v) = dot w u - dot w v.
Proof. by rewrite dotrDr dotrNr. Qed.

Lemma dot0r v : dot 0 v = 0.
Proof. by rewrite -(scale0r v) dotrZl mul0r. Qed.

Lemma dotr0 v : dot v 0 = 0.
Proof. by rewrite dotrC dot0r. Qed.

Lemma dotr_ge0 v : 0 <= dot v v.
Proof. by apply: sumr_ge0 => i _; rewrite -expr2 sqr_ge0. Qed.

Lemma dotr_eq0 v : (dot v v == 0) = (v == 0).
Proof.
apply/idP/eqP => [|->]; last by rewrite dotr0.
rewrite psumr_eq0; first by move=> i _; rewrite -expr2 sqr_ge0.
move=> /allP zero; apply/rowP => i; rewrite mxE.
have := zero i; rewrite mem_index_enum /= -expr2 sqrf_eq0 => /(_ isT).
by move/eqP.
Qed.

Lemma dotr_gt0 v : v != 0 -> 0 < dot v v.
Proof. by rewrite lt0r dotr_eq0 dotr_ge0 andbT. Qed.

(** The dot product as a one-by-one matrix product. *)
Lemma dotr_mulmx u v : dot u v = (u *m v^T) 0 0.
Proof. by rewrite mxE; apply: eq_bigr => i _; rewrite mxE. Qed.

(** A symmetric matrix moves across the dot product. *)
Lemma dotr_sym M u v : symmetric M -> dot (u *m M) v = dot u (v *m M).
Proof.
by move=> symM; rewrite !dotr_mulmx trmx_mul symM !mulmxA.
Qed.

(** At most [n] nonzero vectors of dimension [n] are pairwise orthogonal:
    the matrix of their dot products is diagonal and invertible, and its
    rank is at most [n]. *)
Lemma orthogonal_family_bound m (V : 'I_m -> 'rV[F]_n) :
  (forall i, V i != 0) ->
  (forall i j, i != j -> dot (V i) (V j) = 0) ->
  (m <= n)%N.
Proof.
move=> nz orth; pose R : 'M[F]_(m, n) := \matrix_(i < m) V i.
have gramE : R *m R^T = diag_mx (\row_i dot (V i) (V i)).
  apply/matrixP => i j; rewrite !mxE.
  have -> : \sum_k R i k * R^T k j = dot (V i) (V j).
    by apply: eq_bigr => k _; rewrite !mxE.
  case: (eqVneq i j) => [->|ne_ij].
    by rewrite mulr1n.
  by rewrite mulr0n orth.
have unit_gram : R *m R^T \in unitmx.
  rewrite gramE unitmxE det_diag unitfE; apply/prodf_neq0 => i _.
  by rewrite mxE dotr_eq0.
by rewrite -(mxrank_unit unit_gram) mulmx_max_rank.
Qed.

End DotFacts.

(** ** The conjugate-gradient recurrence on row vectors *)

Section RecurrenceFacts.

Variable F : realFieldType.
Variable n : nat.
Variables (M : 'M[F]_n) (b x0 : 'rV[F]_n).
Hypothesis symM : symmetric M.
Hypothesis pdM : positive_definite M.

Local Notation dot := (@dotr F n).
Local Notation st k := (iter k (rv_step M) (rv_init M b x0)).
Local Notation X k := (rv_x (st k)).
Local Notation R k := (rv_r (st k)).
Local Notation P k := (rv_p (st k)).
Local Notation RS k := (rv_rs (st k)).
Local Notation curv k := (dot (P k) (P k *m M)).
Local Notation al k := (RS k / curv k).
Local Notation be k := (RS k.+1 / RS k).

Lemma rv_rsE k : RS k = dot (R k) (R k).
Proof. by case: k. Qed.

Lemma rv_p0 : P 0 = R 0.
Proof. by []. Qed.

Lemma rv_recR k : R k.+1 = R k - al k *: (P k *m M).
Proof. by []. Qed.

Lemma rv_recP k : P k.+1 = R k.+1 + be k *: P k.
Proof. by []. Qed.

Lemma rv_recX k : X k.+1 = X k + al k *: P k.
Proof. by []. Qed.

(** The residual is [b - x M] all along. *)
Lemma rv_residual k : R k = b - X k *m M.
Proof.
elim: k => [|k IH] //; rewrite rv_recR rv_recX IH.
by rewrite mulmxDl -scalemxAl opprD addrA.
Qed.

(** Once the residual vanishes, so does the search direction. *)
Lemma rv_direction0 k : R k = 0 -> P k = 0.
Proof.
case: k => [|k] Rk0; first by rewrite rv_p0.
by rewrite rv_recP rv_rsE Rk0 dot0r mul0r scale0r addr0.
Qed.

(** The invariant of the recurrence up to pass [k]: residuals are
    orthogonal to earlier directions and to earlier residuals, and
    directions are conjugate. *)
Let inv k : Prop :=
  [/\ forall j, (j <= k)%N -> dot (R j) (P j) = RS j,
      forall i j, (i < j)%N -> (j <= k)%N -> dot (R j) (P i) = 0,
      forall i j, (i < j)%N -> (j <= k)%N -> dot (P j) (P i *m M) = 0
    & forall i j, (i < j)%N -> (j <= k)%N -> dot (R j) (R i) = 0].

Lemma rv_rs_gt0 k : R k != 0 -> 0 < RS k.
Proof. by move=> nz; rewrite rv_rsE dotr_gt0. Qed.

Lemma rv_curv_gt0 k : dot (R k) (P k) = RS k -> R k != 0 -> 0 < curv k.
Proof.
move=> RP nz; apply: pdM; apply: contraTneq (rv_rs_gt0 nz) => P0.
by rewrite -RP P0 dotr0 ltxx.
Qed.

Lemma rv_inv k : (forall i, (i < k)%N -> R i != 0) -> inv k.
Proof.
elim: k => [|k IH] nz.
  split=> [j|i j lt_ij|i j lt_ij|i j lt_ij]; rewrite leqn0 => /eqP j0.
  - by rewrite j0 rv_p0 rv_rsE.
  - by rewrite j0 in lt_ij.
  - by rewrite j0 in lt_ij.
  - by rewrite j0 in lt_ij.
have [H1 H2 H3 H4] : inv k by apply: IH => i lt_i; apply: nz; apply: ltnW.
have nzk i : (i <= k)%N -> R i != 0 by move=> le_i; apply: nz.
have rs_gt0 i : (i <= k)%N -> 0 < RS i by move=> /nzk /rv_rs_gt0.
have curv_gt0 i : (i <= k)%N -> 0 < curv i.
  by move=> le_i; apply: rv_curv_gt0; [apply: H1 | apply: nzk].
have al_curv i : (i <= k)%N -> al i * curv i = RS i.
  by move=> le_i; rewrite divfK // lt0r_neq0 // curv_gt0.
have al_neq0 i : (i <= k)%N -> al i != 0.
  by move=> le_i; rewrite lt0r_neq0 // divr_gt0 ?rs_gt0 ?curv_gt0.
(* the new residual against the directions *)
have H2' i : (i <= k)%N -> dot (R k.+1) (P i) = 0.
  move=> le_i; rewrite rv_recR dotrBl dotrZl dotr_sym //.
  move: le_i; rewrite leq_eqVlt => /orP[/eqP -> | lt_i].
    by rewrite (H1 k) // al_curv // subrr.
  by rewrite (H2 i k) // (H3 i k) // mulr0 subrr.
(* the new residual against the residuals *)
have H4' i : (i <= k)%N -> dot (R k.+1) (R i) = 0.
  case: i => [|i] le_i; first by rewrite -rv_p0 H2'.
  have -> : R i.+1 = P i.+1 - be i *: P i by rewrite rv_recP addrK.
  by rewrite dotrBr dotrZr (H2' i.+1) // (H2' i) ?mulr0 ?subrr // ltnW.
(* the new direction against the directions *)
have H3' i : (i <= k)%N -> dot (P k.+1) (P i *m M) = 0.
  move=> le_i.
  have step : al i * dot (R k.+1) (P i *m M)
              = dot (R k.+1) (R i) - dot (R k.+1) (R i.+1).
    by rewrite -dotrZr -dotrBr (rv_recR i) opprB addrCA subrr addr0.
  rewrite rv_recP dotrDl dotrZl.
  move: le_i step; rewrite leq_eqVlt => /orP[/eqP -> | lt_i] step.
    apply: (mulfI (al_neq0 k (leqnn k))); rewrite mulr0 mulrDr step.
    rewrite (H4' k) // sub0r -rv_rsE mulrCA al_curv //.
    by rewrite divfK ?addNr // lt0r_neq0 // rs_gt0.
  rewrite (H3 i k) // mulr0 addr0; apply: (mulfI (al_neq0 i (ltnW lt_i))).
  by rewrite mulr0 step (H4' i) ?(H4' i.+1) ?subrr // ltnW.
split=> [j|i j lt_ij|i j lt_ij|i j lt_ij];
    rewrite leq_eqVlt => /orP[/eqP j_eq | lt_j].
- by rewrite j_eq rv_recP dotrDr dotrZr (H2' k) // mulr0 addr0 -rv_rsE.
- exact: H1.
- by rewrite j_eq; apply: H2'; rewrite -ltnS -j_eq.
- exact: H2.
- by rewrite j_eq; apply: H3'; rewrite -ltnS -j_eq.
- exact: H3.
- by rewrite j_eq; apply: H4'; rewrite -ltnS -j_eq.
- exact: H4.
Qed.

(** The residual vanishes after at most [n] passes, and no pass before
    that one breaks down. *)
Lemma rv_finite_termination :
  exists k,
    [/\ (k <= n)%N, R k = 0, P k = 0
      & forall i, (i < k)%N -> 0 < curv i].
Proof.
have [k0 le_k0 Rk0] : exists2 k, (k <= n)%N & R k == 0.
  case: (boolP [exists k : 'I_n.+1, R k == 0]) => [/existsP[k Rk]|].
    by exists (nat_of_ord k); [rewrite -ltnS | ].
  move=> /existsPn nz.
  have nzn i : (i < n.+1)%N -> R i != 0.
    by move=> lt_i; have := nz (Ordinal lt_i).
  have [_ _ _ H4] := rv_inv nzn.
  suff : (n.+1 <= n)%N by rewrite ltnn.
  apply: (@orthogonal_family_bound _ _ _ (fun i : 'I_n.+1 => R i)) => [i|i j].
    exact: nz.
  have le_i : (i <= n.+1)%N by apply: ltnW.
  have le_j : (j <= n.+1)%N by apply: ltnW.
  rewrite neq_ltn => /orP[lt_ij | lt_ji]; last exact: H4.
  by rewrite dotrC; apply: H4.
have exR : exists k, R k == 0 by exists k0.
case: (ex_minnP exR) => k Rk min_k.
have nzk i : (i < k)%N -> R i != 0.
  by move=> lt_i; apply: contraL lt_i => /min_k; rewrite -leqNgt.
have [H1 _ _ _] := rv_inv nzk.
exists k; split.
- exact: leq_trans (min_k _ Rk0) le_k0.
- exact/eqP.
- by apply: rv_direction0; apply/eqP.
- move=> i lt_i; apply: rv_curv_gt0 (nzk _ lt_i).
  have [H1i _ _ _] : inv i.
    by apply: rv_inv => i' lt_i'; apply: nzk; apply: ltn_trans lt_i.
  exact: H1i.
Qed.

End RecurrenceFacts.

(** ** From arrays to row vectors *)

Section ViewFacts.

Variable F : realFieldType.
Variable n : nat.
Implicit Types (u v w : vec F) (a : F).

Local Notation rV := (@to_rV F n).

Lemma to_rV_addv u v : size u = size v -> rV (addv u v) = rV u + rV v.
Proof. by move=> suv; apply/rowP => i; rewrite !mxE nth_addv. Qed.

Lemma to_rV_subv u v : size u = size v -> rV (subv u v) = rV u - rV v.
Proof. by move=> suv; apply/rowP => i; rewrite !mxE nth_subv. Qed.

Lemma to_rV_scalev a v : rV (scalev a v) = a *: rV v.
Proof. by apply/rowP => i; rewrite !mxE nth_scalev. Qed.

Lemma to_rV_zeros : rV (zeros F n) = 0.
Proof. by apply/rowP => i; rewrite !mxE nth_zeros. Qed.

Lemma dotv_to_rV u v :
  size u = n -> size v = n -> dotv u v = dotr (rV u) (rV v).
Proof.
move=> su sv; rewrite (dotvE su sv).
by apply: eq_bigr => i _; rewrite !mxE.
Qed.

Lemma to_rV_inj u v : size u = n -> size v = n -> rV u = rV v -> u = v.
Proof.
move=> su sv eq_uv; apply: (vec_eqP su sv) => i lt_i.
by have /rowP /(_ (Ordinal lt_i)) := eq_uv; rewrite !mxE.
Qed.

End ViewFacts.

(** ** The solver follows the recurrence *)

Section Simulation.

Variable F : realFieldType.
Variable n : nat.
Variables (A : linear_operator F) (M : 'M[F]_n) (tol : F).
Hypothesis repM : represents A M.
Hypothesis tol_le0 : tol <= 0.

Implicit Types (s : cg_state F) (S : rv_state F n) (k : nat).

Local Notation rV := (@to_rV F n).
Local Notation view := (@rv_of_state F n).
Local Notation curvature S := (dotr (rv_p S) (rv_p S *m M)).

(** All three arrays of a state have length [n]. *)
Let sized s : Prop :=
  [/\ size (it_x s) = n, size (it_r s) = n & size (it_p s) = n].

Lemma represents_apply w :
  size w = n ->
  exists Aw, [/\ apply A w = Ok Aw, size Aw = n & rV Aw = rV w *m M].
Proof.
case: repM => shA + sw => /(_ w sw) [v [opE sv vE]].
by exists v; split=> //; rewrite /apply shA /= sw eqxx.
Qed.

(** One pass: with positive curvature the solver goes on as the recurrence
    does, otherwise it stops with [Breakdown] on the iterate it has. *)
Lemma cg_step_view s :
  sized s ->
  (0 < curvature (view s) ->
   exists s', [/\ cg_step A tol s = Continue s', sized s'
                & view s' = rv_step M (view s)])
  /\ (curvature (view s) <= 0 -> cg_step A tol s = Stop (it_x s) Breakdown).
Proof.
case=> sx sr sp; have [Ap [apE sAp ApE]] := represents_apply sp.
have curvE : dotv (it_p s) Ap = curvature (view s).
  by rewrite (dotv_to_rV sp sAp) ApE.
split=> [curv_gt0|curv_le0]; last by rewrite /cg_step apE curvE curv_le0.
rewrite /cg_step apE curvE leNgt curv_gt0 /= sqrt_lt_le0 //.
set s' := CGState _ _ _ _; exists s'.
have sr' : size (it_r s') = n by rewrite /s' /=; vsize.
split=> //; first by split=> //; rewrite /s' /=; vsize.
pose a := it_rs s / curvature (view s).
have xE : rV (it_x s') = rv_x (view s) + a *: rv_p (view s).
  by rewrite /s' /= to_rV_addv ?size_scalev ?sx ?sp // to_rV_scalev.
have rE : rV (it_r s') = rv_r (view s) - a *: (rv_p (view s) *m M).
  by rewrite /s' /= to_rV_subv ?size_scalev ?sr ?sAp // to_rV_scalev ApE.
have rsE : it_rs s' = dotr (rV (it_r s')) (rV (it_r s')).
  by rewrite -(dotv_to_rV sr' sr').
have pE : rV (it_p s')
          = rV (it_r s') + (it_rs s' / rv_rs (view s)) *: rv_p (view s).
  rewrite {1}/s' /= to_rV_addv ?to_rV_scalev //.
  by move: sr'; rewrite /s' /= size_scalev sp.
by rewrite /rv_of_state pE rsE rE xE.
Qed.

(** [k] passes: as long as the curvature stays positive the solver is at
    the [k]-th state of the recurrence. *)
Lemma cg_run_view k s0 :
  sized s0 ->
  (forall i, (i < k)%N ->
     0 < curvature (iter i (rv_step M) (view s0))) ->
  exists sk, [/\ cg_run A tol k s0 = Some sk, sized sk
               & view sk = iter k (rv_step M) (view s0)].
Proof.
move=> sz0; elim: k => [|k IH] curv_gt0; first by exists s0.
have [sk [runE szk viewE]] : exists sk,
    [/\ cg_run A tol k s0 = Some sk, sized sk
      & view sk = iter k (rv_step M) (view s0)].
  by apply: IH => i lt_i; apply: curv_gt0; apply: ltnW.
have [+ _] := cg_step_view szk; rewrite viewE => /(_ (curv_gt0 k (leqnn _))).
case=> s' [stepE sz' viewE']; exists s'; split=> //.
by rewrite cg_run_snoc runE stepE.
Qed.

(** Steps 1 and 2. *)
Lemma cg_init_view (b : vec F) (x0 : option (vec F)) :
  size b = n -> start_ok n x0 ->
  exists s0,
    [/\ cg_init A b x0 = Ok s0, sized s0
      & view s0
        = rv_init M (rV b) (rV (if x0 is Some v then v else zeros F n))].
Proof.
move=> sb ok0.
have sx : size (if x0 is Some v then v else zeros F n) = n.
  by case: x0 ok0 => [v /eqP|_] //; rewrite size_zeros.
set x := if x0 is Some v then v else zeros F n in sx *.
have [Ax [apE sAx AxE]] := represents_apply sx.
have shA : (op_shape A).2 = n by case: repM => ->.
exists (CGState x (subv b Ax) (subv b Ax) (dotv (subv b Ax) (subv b Ax))).
have sr : size (subv b Ax) = n by vsize.
split=> //.
  by rewrite /cg_init shA sb eqxx -/x apE.
rewrite /rv_of_state /rv_init /= to_rV_subv ?sb ?sAx // AxE.
by congr RvState; rewrite (@dotv_to_rV _ n) // to_rV_subv ?sb ?sAx // AxE.
Qed.

End Simulation.

(** ** Convergence in exact arithmetic *)

Section Convergence.

Variable F : realFieldType.

(** With the tolerance test off, the iterate after some [k <= n] passes
    solves the system, and the pass after it finds a zero direction. *)
Lemma cg_reaches_solution (n : nat) (A : linear_operator F)
    (M : 'M[F]_n) (b : vec F) (x0 : option (vec F)) (tol : F) :
  represents A M -> symmetric M -> positive_definite M ->
  size b = n -> start_ok n x0 -> tol <= 0 ->
  exists k s0 sk,
    [/\ (k <= n)%N,
        cg_init A b x0 = Ok s0,
        cg_run A tol k s0 = Some sk,
        apply A (it_x sk) = Ok b
      & cg_step A tol sk = Stop (it_x sk) Breakdown].
Proof.
move=> repM symM pdM sb ok0 tol0.
have [s0 [initE sz0 viewE0]] := cg_init_view repM sb ok0.
set x := (if x0 is Some v then v else zeros F n) in viewE0.
have [k [le_k Rk0 Pk0 curv_gt0]] :=
  rv_finite_termination (to_rV n b) (to_rV n x) symM pdM.
rewrite -viewE0 in Rk0 Pk0 curv_gt0.
have [sk [runE szk viewEk]] := cg_run_view repM tol0 sz0 curv_gt0.
exists k, s0, sk; split=> //.
  case: szk => sxk _ _.
  have [v [-> sv vE]] := represents_apply repM sxk.
  congr Ok; apply: (to_rV_inj sv sb); rewrite vE.
  have /eqP := rv_residual M (to_rV n b) (to_rV n x) k.
  by rewrite -viewE0 Rk0 -viewEk eq_sym subr_eq0 => /eqP <-.
have [_ stopE] := cg_step_view repM tol0 szk.
by rewrite stopE // viewEk Pk0 dot0r.
Qed.

(** C6: in exact arithmetic, for an operator of dimension [n] that stands
    for a symmetric positive-definite matrix and a right-hand side [b], the
    iteration of section 4.2 reaches the exact solution within at most [n]
    passes: some iterate [x_k] with [k <= n] satisfies [A x_k = b].  With a
    budget of at least [n] passes the solver returns this iterate after at
    most [k + 1] passes, unless a positive tolerance has stopped it on
    [Converged] before. *)
Theorem cg_exact_within_n_passes (n : nat) (A : linear_operator F)
    (M : 'M[F]_n) (b : vec F) (x0 : option (vec F)) :
  represents A M -> symmetric M -> positive_definite M ->
  size b = n -> start_ok n x0 ->
  exists k s0 sk,
    [/\ (k <= n)%N,
        cg_init A b x0 = Ok s0,
        cg_run A 0 k s0 = Some sk,
        apply A (it_x sk) = Ok b
      & forall tol max_iter, (n <= max_iter)%N ->
          exists x st passes,
            [/\ solve_counted A b x0 tol max_iter = (Ok (x, st), passes),
                (passes <= k.+1)%N
              & x = it_x sk \/ (st = Converged /\ 0 < tol)]].
Proof.
move=> repM symM pdM sb ok0.
have [k [s0 [sk [le_k initE runE apE stopE]]]] :=
  cg_reaches_solution repM symM pdM sb ok0 (lexx 0).
exists k, s0, sk; split=> // tol max_iter le_n.
have le_k_max : (k <= max_iter)%N := leq_trans le_k le_n.
have [[j [sj [le_j tol_gt0 loopE]]]|runE'] := cg_run_tol tol runE.
  exists (it_x sj), Converged, j; split; last by right.
    by rewrite /solve_counted initE loopE // (leq_trans le_j).
  exact: leqW.
have stopE' : cg_step A tol sk = Stop (it_x sk) Breakdown.
  by rewrite cg_step_tol stopE.
have [st [passes [solveE le_passes]]] :=
  solve_after_run initE runE' stopE' le_k_max.
by exists (it_x sk), st, passes; split=> //; left.
Qed.

End Convergence.

(** ** The ridge operator is symmetric positive definite *)

Section RidgeOperator.

Variable F : realFieldType.
Implicit Types (X : spmatrix F) (w y : vec F) (alpha tol : F).

Lemma dense_mx_transpose X : dense_mx (transpose X) = (dense_mx X)^T.
Proof. by apply/matrixP => j i; rewrite !mxE dense_transpose. Qed.

(** [X.dot(w)] is the row vector [w X^T]. *)
Lemma to_rV_spmv X w :
  size w = ncols X ->
  to_rV (nrows X) (spmv X w) = to_rV (ncols X) w *m (dense_mx X)^T.
Proof.
move=> sw; apply/rowP => i; rewrite !mxE nth_spmv // row_sum_dense //.
by apply: eq_bigr => k _; rewrite !mxE mulrC.
Qed.

Lemma to_rV_gram X w :
  size w = ncols X ->
  to_rV (ncols X) (spmv (transpose X) (spmv X w))
  = to_rV (ncols X) w *m ((dense_mx X)^T *m dense_mx X).
Proof.
move=> sw.
have := @to_rV_spmv (transpose X) (spmv X w) (size_spmv X w).
by rewrite dense_mx_transpose trmxK /= => ->; rewrite to_rV_spmv // mulmxA.
Qed.

Lemma ridge_represents X alpha :
  represents (LinearOperator (ncols X, ncols X) (ridge_matvec X alpha))
             (ridge_mx X alpha).
Proof.
split=> // w sw.
exists (addv (spmv (transpose X) (spmv X w)) (scalev alpha w)); split.
- exact: ridge_matvec_ok.
- by vsize.
- rewrite to_rV_addv ?size_spmv ?size_scalev // to_rV_scalev to_rV_gram //.
  by rewrite /ridge_mx mulmxDr mul_mx_scalar.
Qed.

Lemma ridge_symmetric X alpha : symmetric (ridge_mx X alpha).
Proof.
by rewrite /symmetric /ridge_mx linearD /= trmx_mul trmxK tr_scalar_mx.
Qed.

Lemma ridge_positive_definite X alpha :
  0 < alpha -> positive_definite (ridge_mx X alpha).
Proof.
move=> alpha_gt0 v v_neq0; rewrite /ridge_mx mulmxDr mul_mx_scalar.
rewrite dotrDr dotrZr.
have -> : dotr v (v *m ((dense_mx X)^T *m dense_mx X))
          = dotr (v *m (dense_mx X)^T) (v *m (dense_mx X)^T).
  by rewrite !dotr_mulmx !trmx_mul trmxK !mulmxA.
by rewrite ltr_wpDl ?dotr_ge0 // mulr_gt0 // dotr_gt0.
Qed.

(** With [alpha > 0], the tolerance test off and a budget of at least
    [n_features] passes, [sparse_ridge] returns the exact solution of
    [(X^T X + alpha I) w = X^T y]. *)
Corollary sparse_ridge_exact (g : globals F) X y alpha
    (x0 : option (vec F)) tol (max_iter : nat) :
  0 < alpha -> size y = nrows X -> start_ok (ncols X) x0 ->
  tol <= 0 -> (ncols X <= max_iter)%N ->
  exists2 w, sparse_ridge (library_cg tol max_iter) g X y alpha x0 = Ok w
           & ridge_matvec X alpha w = Ok (spmv (transpose X) y).
Proof.
move=> alpha_gt0 sy ok0 tol0 le_n.
have sb : size (spmv (transpose X) y) = ncols X by rewrite size_spmv.
have [k [s0 [sk [le_k initE runE apE stopE]]]] :=
  cg_reaches_solution (ridge_represents X alpha) (ridge_symmetric X alpha)
    (@ridge_positive_definite X alpha alpha_gt0) sb ok0 tol0.
have [st [passes [solveE _]]] :=
  solve_after_run initE runE stopE (leq_trans le_k le_n).
exists (it_x sk).
  by rewrite /sparse_ridge spdot_ok //= /library_cg /solve solveE.
by move: apE; rewrite /apply /=; case: eqP.
Qed.

(** A start of the wrong length makes the whole call fail. *)
Lemma sparse_ridge_bad_start (g : globals F) X y alpha v tol
    (max_iter : nat) :
  size y = nrows X -> size v != ncols X ->
  sparse_ridge (library_cg tol max_iter) g X y alpha (Some v)
  = Err DimensionMismatch.
Proof.
move=> sy sv; rewrite /sparse_ridge spdot_ok //= /library_cg /solve.
by rewrite /solve_counted /cg_init /= size_spmv eqxx /apply /= (negbTE sv).
Qed.

End RidgeOperator.

(** The operator [sparse_ridge] builds for [X = [[1,0],[0,2]]] and
    [alpha = 1] stands for the matrix [diag(2, 5)]. *)
Lemma cg_exact_within_n_passes_witness :
  let A := LinearOperator (2%N, 2%N) (ridge_matvec Examples.X_diag12 1) in
  exists k s0 sk,
    [/\ (k <= 2)%N,
        cg_init A [:: 1; 1] None = Ok s0,
        cg_run A 0 k s0 = Some sk,
        apply A (it_x sk) = Ok [:: 1; 1]
      & forall tol max_iter, (2 <= max_iter)%N ->
          exists x st passes,
            [/\ solve_counted A [:: 1; 1] None tol max_iter
                = (Ok (x, st), passes),
                (passes <= k.+1)%N
              & x = it_x sk \/ (st = Converged /\ 0 < tol)]].
Proof.
exact: (@cg_exact_within_n_passes _ _ _ _ [:: 1; 1] None
          (ridge_represents Examples.X_diag12 1)
          (ridge_symmetric Examples.X_diag12 1)
          (@ridge_positive_definite _ Examples.X_diag12 1 ltr01)
          (erefl _) isT).
Defined.

(** ** Runs on concrete systems *)

(** The system [2 w = 1] from the zero start, tolerance test off: one
    update reaches [w = 1/2], the next pass finds a zero direction. *)
Example cg_run_two :
  solve_counted Examples.A_two [:: 1] None 0 5
  = (Ok ([:: 1 / 2%:R], Breakdown), 2%N).
Proof. by apply/eqP; vm_compute. Qed.

(** The same system with a positive tolerance stops at the update. *)
Example cg_run_two_tol :
  solve_counted Examples.A_two [:: 1] None Examples.tol_ex 5
  = (Ok ([:: 1 / 2%:R], Converged), 1%N).
Proof. by apply/eqP; vm_compute. Qed.

(** A budget of zero passes returns the start with [MaxIterReached]. *)
Example cg_run_no_budget :
  solve_counted Examples.A_two [:: 1] None Examples.tol_ex 0
  = (Ok ([:: 0], MaxIterReached), 0%N).
Proof. by apply/eqP; vm_compute. Qed.

(** [sparse_ridge] on [X = [[1,0],[0,2]]] with [X^T y = [1,1]] and no
    regularization: two updates reach [[1, 1/4]], the third pass stops. *)
Example sparse_ridge_diag12 :
  sparse_ridge (library_cg 0 5) Examples.g_nb Examples.X_diag12
    [:: 1; 1 / 2%:R] 0 None
  = Ok [:: 1; 1 / 4%:R].
Proof. by apply/eqP; vm_compute. Qed.

Example cg_run_diag12 :
  solve_counted (LinearOperator (2%N, 2%N) (ridge_matvec Examples.X_diag12 0))
    [:: 1; 1] None 0 5
  = (Ok ([:: 1; 1 / 4%:R], Breakdown), 3%N).
Proof. by apply/eqP; vm_compute. Qed.

(** The notebook's call with an intercept column: two samples on the
    line [y = 2 x + 1], no regularization. *)
Example sparse_ridge_intercept_line :
  sparse_ridge_intercept (library_cg 0 3) Examples.g_nb
    Examples.Xb_line Examples.y_line 0 (Some [:: 0; 0])
  = Ok (2%:R, 1).
Proof. by apply/eqP; vm_compute. Qed.

(** * The other cells: properties *)

(** ** The appended constant column *)

Section HstackFacts.

Variable F : realFieldType.
Implicit Types (X : spmatrix F) (u v w y : vec F) (a b c alpha : F).
Implicit Types (i j n : nat).

(** What [hstack_const] builds when the row counts agree. *)
Local Notation Xh X c :=
  (SpMatrix (nrows X) (ncols X).+1
     (entries X ++ [seq (i, ncols X, c) | i <- iota 0 (nrows X)])).

Lemma hstack_const_ok X c : hstack_const X (nrows X) c = Ok (Xh X c).
Proof. by rewrite /hstack_const eqxx. Qed.



Lemma in_shapeP X e :
  in_shape X -> e \in entries X ->
  (e.1.1 < nrows X)%N /\ (e.1.2 < ncols X)%N.
Proof. by move=> /allP inX /inX /andP[]. Qed.

Lemma filter_iota_eq n i :
  (i < n)%N -> [seq j <- iota 0 n | j == i] = [:: i].
Proof.
move=> lt_i; apply: (filter_pred1_uniq (iota_uniq 0 n)).
by rewrite mem_iota add0n.
Qed.

(** A row of the stacked matrix: the row of [X] plus [c] times the last
    coordinate. *)
Lemma row_sum_hstack X c w b i :
  in_shape X -> size w = ncols X -> (i < nrows X)%N ->
  row_sum (Xh X c) (rcons w b) i = row_sum X w i + c * b.
Proof.
move=> inX sw lt_i; rewrite !row_sumE /= big_cat /=; congr (_ + _).
  rewrite big_seq_cond [RHS]big_seq_cond; apply: eq_bigr => e /andP[e_in _].
  have [_ lt_col] := in_shapeP inX e_in.
  by rewrite nth_rcons sw lt_col.
rewrite big_map /= -big_filter filter_iota_eq // big_seq1.
by rewrite nth_rcons sw ltnn eqxx.
Qed.

Lemma spmv_hstack X c w b :
  in_shape X -> size w = ncols X ->
  spmv (Xh X c) (rcons w b) = [seq t + c * b | t <- spmv X w].
Proof.
move=> inX sw; apply: (@vec_eqP _ (nrows X)).
- by rewrite size_spmv.
- by rewrite size_map size_spmv.
move=> i lt_i; rewrite nth_spmv // row_sum_hstack //.
by rewrite (nth_map 0) ?size_spmv // nth_spmv.
Qed.




End HstackFacts.

Section HstackTheorems.

Variable F : realFieldType.
Implicit Types (X : spmatrix F) (u v w y : vec F) (a b c alpha : F).
Implicit Types (i j n : nat).

Local Notation Xh X c :=
  (SpMatrix (nrows X) (ncols X).+1
     (entries X ++ [seq (i, ncols X, c) | i <- iota 0 (nrows X)])).

(** X1: for [Xb = sparse.hstack((X, c * np.ones((n_samples, 1))))], the
    product [Xb.dot] at [w] followed by [b] is [X.dot(w) + c * b] on every
    sample: the appended column carries the intercept, scaled by [c].
    The stacking itself fails when [n_samples] is not the number of rows
    of [X]. *)
Theorem hstack_prediction X n c w b :
  in_shape X -> size w = ncols X ->
  (n = nrows X ->
   exists2 Xb, hstack_const X n c = Ok Xb
             & spdot Xb (rcons w b) = Ok [seq t + c * b | t <- spmv X w])
  /\ (n != nrows X -> hstack_const X n c = Err DimensionMismatch).
Proof.
move=> inX sw; split=> [->|ne_n]; last by rewrite /hstack_const (negbTE ne_n).
exists (Xh X c); first exact: hstack_const_ok.
by rewrite spdot_ok ?spmv_hstack //= size_rcons sw.
Qed.


End HstackTheorems.

(** ** The quadratic forms of the two operators *)

Section QuadraticForms.

Variable F : realFieldType.
Implicit Types (X Xb : spmatrix F) (u v w y : vec F) (a b c alpha : F).
Implicit Types (i j n : nat) (g : globals F).

Local Notation gram X w := (spmv (transpose X) (spmv X w)).








(** X5: with a solver that returns a vector of the operator's dimension,
    [sparse_ridge] returns only when [y] has one entry per sample, and
    what it returns has one entry per feature: it can be passed back as
    the start [x0] of a further call on the same [X]. *)
Theorem sparse_ridge_output_length (info : Type)
    (cg : linear_operator F -> vec F -> option (vec F)
          -> result (vec F * info))
    g X y alpha (x0 : option (vec F)) w :
  sized_solver cg ->
  sparse_ridge cg g X y alpha x0 = Ok w ->
  [/\ size y = nrows X, size w = ncols X & start_ok (ncols X) (Some w)].
Proof.
move=> cg_sized; rewrite /sparse_ridge /spdot /=.
case: eqP => // sy /=; case cgE: (cg _ _ _) => [[x i]|e] //= [<-].
by have /= sx := cg_sized _ _ _ _ _ cgE; rewrite /start_ok sx eqxx.
Qed.

End QuadraticForms.

(** ** Dense arrays *)

Section DenseFacts.

Variable F : realFieldType.
Implicit Types (X D : ndarray2 F) (u v w y r m : vec F) (a b c alpha : F).
Implicit Types (i j n : nat).

Lemma wf2_size D : wf2 D -> size (rows2 D) = (shape2 D).1.
Proof. by case/andP => /eqP. Qed.

Lemma wf2_row D r : wf2 D -> r \in rows2 D -> size r = (shape2 D).2.
Proof. by case/andP => _ /allP rows /rows /eqP. Qed.

Lemma wf2_nth D i :
  wf2 D -> (i < (shape2 D).1)%N -> size (nth [::] (rows2 D) i) = (shape2 D).2.
Proof.
by move=> wfD lt_i; apply: (wf2_row wfD); rewrite mem_nth ?wf2_size.
Qed.

Lemma size_np_col D j : size (np_col D j) = size (rows2 D).
Proof. by rewrite size_map. Qed.

Lemma nth_np_col D i j :
  (i < size (rows2 D))%N -> nth 0 (np_col D j) i = np_entry D i j.
Proof. by move=> lt_i; rewrite (nth_map [::]). Qed.

Lemma matmul_ok D w :
  size w = (shape2 D).2 -> matmul D w = Ok [seq dotv r w | r <- rows2 D].
Proof. by rewrite /matmul => ->; rewrite eqxx. Qed.

Lemma matmul_err D w :
  size w != (shape2 D).2 -> matmul D w = Err DimensionMismatch.
Proof. by rewrite /matmul => /negbTE ->. Qed.

Lemma bcast1_same (op : F -> F -> F) u v :
  size u = size v -> bcast1 op u v = Ok [seq op p.1 p.2 | p <- zip u v].
Proof. by rewrite /bcast1 => ->; rewrite eqxx. Qed.

(** *** Sums and dot products *)






(** *** Centering *)





End DenseFacts.

(** ** Centering and the intercept *)

Section CenteringTheorems.

Variable F : realFieldType.
Implicit Types (X D : ndarray2 F) (u v w y r m : vec F) (a b c alpha : F).
Implicit Types (i j n : nat).






(** X10: where the residual with an intercept is defined.  For [y] of
    the length of the data it returns one residual per sample when [w]
    has one entry more than [X] has columns; it fails on [w[-1]] with an
    index error for the empty [w] on data without columns; any other
    length fails in the product. *)
Theorem intercept_residual_domain X y w :
  wf2 X -> size y = (shape2 X).1 ->
  [/\ size w = ((shape2 X).2).+1 ->
        exists2 r, f_intercept X y w = Returns r & size r = (shape2 X).1,
      w = [::] -> (shape2 X).2 = 0%N ->
        f_intercept X y w = RaisesIndexError (vec F)
    & size w != ((shape2 X).2).+1 ->
      (w != [::]) || ((shape2 X).2 != 0%N) ->
        f_intercept X y w = Raises (vec F) DimensionMismatch].
Proof.
move=> wfX sy; split.
- case/lastP: w => // w b; rewrite size_rcons => -[sw].
  exists [seq t - b | t <- [seq p.1 - p.2
                           | p <- zip y [seq dotv r w | r <- rows2 X]]].
    rewrite /f_intercept size_rcons /= -cats1 take_size_cat // cats1.
    rewrite /f_plain matmul_ok //= bcast1_same ?size_map ?wf2_size //.
    by case wE: (rcons w b) => [|t w']; [case: (w) wE | rewrite -wE last_rcons].
  by rewrite !size_map size_zip size_map sy wf2_size // minnn.
- move=> -> p0; rewrite /f_intercept /= /f_plain matmul_ok ?p0 //=.
  by rewrite bcast1_same // size_map sy wf2_size.
move=> sw nonempty; rewrite /f_intercept /f_plain matmul_err //.
rewrite size_take; case: (w) sw nonempty => [|t w'] /=.
  by rewrite eq_sym => _ ->.
by rewrite eqSS ltnSn.
Qed.


End CenteringTheorems.

(** ** The matrices handed to [linalg.solve] *)

Section SolveMatrices.

Variable F : realFieldType.
Implicit Types (X Xb D M : ndarray2 F) (alpha : F) (i j q : nat).

(** [np.dot(D.T, D)]: the Gram matrix of the columns. *)
Lemma np_dot2_gram D :
  np_dot2 (np_T D) D
  = Ok (NdArray2 ((shape2 D).2, (shape2 D).2)
          (mkseq (fun i => mkseq (fun j => dotv (np_col D i) (np_col D j))
                                 (shape2 D).2)
                 (shape2 D).2)).
Proof.
rewrite /np_dot2 /= eqxx /mkseq -map_comp; congr (Ok (NdArray2 _ _)).
by apply: eq_map => i /=; rewrite -map_comp.
Qed.

Lemma bdim_1r q : bdim q 1 = Some q.
Proof. by rewrite /bdim; case: ifP => // _; case: ifP => // /eqP ->. Qed.

Lemma index_1 q i : (i < q)%N -> (if q == 1%N then 0%N else i) = i.
Proof. by case: eqP => // ->; case: i. Qed.

Lemma np_entry_mkseq (f : nat -> nat -> F) r c i j :
  (i < r)%N -> (j < c)%N ->
  np_entry (NdArray2 (r, c) (mkseq (fun i => mkseq (f i) c) r)) i j = f i j.
Proof. by move=> lt_i lt_j; rewrite /np_entry /= !nth_mkseq. Qed.

(** X12: the matrix of option 1, [np.dot(X_centered.T, X_centered) +
    alpha * np.eye(1)].  The [1 x 1] identity is broadcast: [alpha] is
    added to every entry of the Gram matrix, off the diagonal as well, so
    this is the ridge matrix only for a single feature. *)
Theorem option1_matrix_adds_alpha_everywhere X alpha :
  exists2 M, option1_matrix X alpha = Ok M
    & shape2 M = ((shape2 X).2, (shape2 X).2)
      /\ forall i j, (i < (shape2 X).2)%N -> (j < (shape2 X).2)%N ->
           np_entry M i j
           = dotv (np_col (X_centered X) i) (np_col (X_centered X) j)
             + alpha.
Proof.
rewrite /option1_matrix np_dot2_gram /= /np_add2 /= !bdim_1r.
eexists; first by [].
split=> // i j lt_i lt_j; rewrite np_entry_mkseq // /np_get /=.
by rewrite !index_1 // !nth_mkseq //= mulr1.
Qed.

(** X13: the matrix of option 2, [np.dot(Xb.T, Xb) + alpha *
    np.eye(2)].  With two columns (one feature and the ones) [alpha] is
    added to both diagonal entries, the one of the intercept included;
    with one column the Gram entry is broadcast to a [2 x 2] matrix; with
    any other number of columns the sum fails. *)
Theorem option2_matrix_two_columns Xb alpha :
  [/\ (shape2 Xb).2 = 2%N ->
        exists2 M, option2_matrix Xb alpha = Ok M
          & shape2 M = (2%N, 2%N)
            /\ forall i j, (i < 2)%N -> (j < 2)%N ->
                 np_entry M i j
                 = dotv (np_col Xb i) (np_col Xb j) + alpha * (i == j)%:R,
      (shape2 Xb).2 = 1%N ->
        exists2 M, option2_matrix Xb alpha = Ok M
          & shape2 M = (2%N, 2%N)
            /\ forall i j, (i < 2)%N -> (j < 2)%N ->
                 np_entry M i j
                 = dotv (np_col Xb 0) (np_col Xb 0) + alpha * (i == j)%:R
    & (shape2 Xb).2 != 1%N -> (shape2 Xb).2 != 2%N ->
        option2_matrix Xb alpha = Err DimensionMismatch].
Proof.
split.
- move=> q2; rewrite /option2_matrix np_dot2_gram /= /np_add2 /= q2 /=.
  eexists; first by [].
  by split=> // -[|[|i]] // [|[|j]] //= _ _; rewrite /np_entry /np_get /=.
- move=> q1; rewrite /option2_matrix np_dot2_gram /= /np_add2 /= q1 /=.
  eexists; first by [].
  by split=> // -[|[|i]] // [|[|j]] //= _ _; rewrite /np_entry /np_get /=.
move=> /negbTE q1 /negbTE q2.
rewrite /option2_matrix np_dot2_gram /= /np_add2 /= /bdim.
by rewrite q2 q1.
Qed.

End SolveMatrices.

(** ** The fitted intercept *)

Section FittedIntercept.

Variable F : realFieldType.
Implicit Types (X Xb : spmatrix F) (u v w y : vec F) (a b c alpha : F).
Implicit Types (i j n : nat).





End FittedIntercept.

(** ** The logistic-regression notebook *)

Section LogisticPrep.

Variable F : realFieldType.
Implicit Types (data X : ndarray2 F) (target : seq int) (y w u : vec F).

(** Selecting by a boolean mask computed from [s] is selecting the
    positions where the test holds. *)
Lemma mask_filter_index (T U : Type) (a : pred T) (x0 : T) (u0 : U)
    (s : seq T) (t : seq U) :
  size s = size t ->
  mask [seq a x | x <- s] t
  = [seq nth u0 t i | i <- [seq i <- iota 0 (size s) | a (nth x0 s i)]].
Proof.
elim: s t => [|x s IH] [|u t] //= [st].
have -> : iota 1 (size s) = [seq i.+1 | i <- iota 0 (size s)].
  by rewrite (iotaDl 1 0).
by rewrite filter_map; case: (a x); rewrite /= -map_comp IH.
Qed.

(** X16: the preparation cell keeps exactly the samples of the classes
    below 2, in their order: row [k] of the result is the first two
    features of the [k]-th such sample followed by a one, and label [k]
    is [-1] when its class is 0 and [1] otherwise (the classes are
    nonnegative numbers).  It fails with an index error when the targets
    are not as many as the rows. *)
Theorem binary_prep_invariants data target :
  wf2 data -> all (fun t => 0 <= t) target ->
  let kept := [seq i <- iota 0 (size target) | nth 0 target i < 2] in
  [/\ size target = (shape2 data).1 ->
        exists X (labels : seq int),
          binary_prep data target = Returns (X, labels)
          /\ [/\ rows2 X
                 = [seq rcons (take 2 (nth [::] (rows2 data) i)) 1
                   | i <- kept],
                 labels
                 = [seq (if nth 0 target i == 0 then -1 else 1) | i <- kept],
                 shape2 X = (size kept, (minn 2 (shape2 data).2).+1),
                 size kept = count (fun t => t < 2) target
               & wf2 X]
    & size target != (shape2 data).1 ->
        binary_prep data target = RaisesIndexError (ndarray2 F * seq int)].
Proof.
move=> wfD nonneg kept; pose keep := [seq t < 2 | t <- target].
pose rows := mask keep [seq take 2 r | r <- rows2 data].
split=> [st|ne_t]; last first.
  by rewrite /binary_prep /bool_index !size_map wf2_size // (negbTE ne_t).
have sk : size keep = size [seq take 2 r | r <- rows2 data].
  by rewrite !size_map wf2_size.
have sr : size rows = count (fun t => t < 2) target.
  by rewrite size_mask // count_map; apply: eq_count.
have skept : size kept = count (fun t => t < 2) target.
  rewrite -sr /rows /keep (mask_filter_index _ 0 [::]) ?size_map //.
  by rewrite wf2_size.
have kept_lt i : i \in kept -> (i < size target)%N.
  by rewrite mem_filter mem_iota => /andP[_].
exists (NdArray2 (size rows, (minn 2 (shape2 data).2).+1)
                 [seq rcons r 1 | r <- rows]).
exists [seq if t == 0 then -1 else t | t <- mask keep target].
split.
  rewrite /binary_prep /bool_index -/keep sk eqxx /= -/rows.
  by rewrite /concat_ones /= eqxx.
split=> /=.
- rewrite /rows /keep (mask_filter_index _ 0 [::]) ?size_map ?wf2_size //.
  rewrite -map_comp; apply/eq_in_map => i /kept_lt lt_i /=.
  by rewrite (nth_map [::]) // wf2_size // -st.
- rewrite /keep (mask_filter_index _ 0 0) // -map_comp.
  apply/eq_in_map => i i_in /=; have lt_i := kept_lt _ i_in.
  have ge0 : 0 <= nth 0 target i by move/all_nthP: nonneg; apply.
  move: i_in; rewrite mem_filter => /andP[lt2 _].
  by case: (nth 0 target i) lt2 ge0 => [[|[|n]]|n].
- by rewrite sr skept.
- exact: skept.
rewrite /wf2 /= size_map eqxx /=; apply/allP => r' /mapP[r r_in ->].
rewrite size_rcons eqSS; move/mem_mask: r_in => /mapP[r0 r0_in ->].
by rewrite size_take_min (wf2_row wfD r0_in).
Qed.

(** X17: [np.sign(np.dot(X, w)) - y] for labels 1 and -1: the entry of
    a sample is zero exactly when the sample is on the side of its
    label, [y_i (x_i . w) > 0]. *)
Theorem sign_check_zero_iff_correct X y w :
  wf2 X -> size w = (shape2 X).2 -> size y = (shape2 X).1 ->
  all (fun t => (t == 1) || (t == -1)) y ->
  exists2 r, sign_check X y w = Ok r
    & size r = (shape2 X).1
      /\ forall i, (i < (shape2 X).1)%N ->
           (nth 0 r i == 0)
           = (0 < nth 0 y i * dotv (nth [::] (rows2 X) i) w).
Proof.
move=> wfX sw sy labels.
pose z := [seq dotv r w | r <- rows2 X].
have sz : size [seq Num.sg t | t <- z] = size y.
  by rewrite !size_map sy wf2_size.
exists [seq p.1 - p.2 | p <- zip [seq Num.sg t | t <- z] y].
  by rewrite /sign_check matmul_ok //= bcast1_same.
split; first by rewrite size_map size_zip sz minnn.
move=> i lt_i.
rewrite (nth_map (0, 0)) ?size_zip ?sz ?minnn ?sy // nth_zip //=.
rewrite (nth_map 0) ?size_map ?wf2_size // (nth_map [::]) ?wf2_size //.
rewrite subr_eq0.
have /orP[/eqP ->|/eqP ->] : (nth 0 y i == 1) || (nth 0 y i == -1).
- by move/all_nthP: labels; apply; rewrite sy.
- by rewrite mul1r sgr_cp0.
by rewrite mulN1r oppr_gt0 sgr_cp0.
Qed.

End LogisticPrep.

Section LogisticObjective.

Variable F : realFieldType.
Variables (exp log : F -> F).
Implicit Types (X : ndarray2 F) (y w u v : vec F) (all_pobj : seq F).
Implicit Types (ws : seq (vec F)).

Lemma f_calls_cons X y all_pobj w ws :
  f_calls exp log X y all_pobj (w :: ws)
  = let r := f_logistic exp log X y all_pobj w in
    let p := f_calls exp log X y r.2 ws in
    (r.1 :: p.1, p.2).
Proof.
by rewrite /=; case: (f_logistic _ _ _ _ _ _) => r l /=; case: (f_calls _ _ _ _ _ _).
Qed.

(** X18: the module-level list [all_pobj] after a sequence of calls of
    [f] is the list before, followed by the values of the calls that
    returned, in order; and what the calls return does not depend on the
    list. *)
Theorem all_pobj_records_returned_values X y all_pobj ws :
  (f_calls exp log X y all_pobj ws).2
  = all_pobj ++ returned (f_calls exp log X y all_pobj ws).1
  /\ (f_calls exp log X y all_pobj ws).1
     = (f_calls exp log X y [::] ws).1.
Proof.
elim: ws all_pobj => [|w ws IH] all_pobj; first by rewrite /= cats0.
rewrite !f_calls_cons /f_logistic.
case: (try z := matmul X w in _) => [pobj|e] /=.
  case: (IH (rcons all_pobj pobj)) => -> ->; case: (IH [:: pobj]) => _ ->.
  by rewrite /returned /= -cats1 -catA.
by case: (IH all_pobj) => -> ->.
Qed.

(** X19: [f] and [fprime] are defined on the same arguments, the
    vectors with one entry per column of [X]; there [fprime] returns a
    vector of the length of its argument, as the minimizer [fmin_cg]
    needs, and [f] appends its value to [all_pobj]. *)
Theorem logistic_objective_and_gradient_domain X y all_pobj w :
  wf2 X -> size y = (shape2 X).1 ->
  [/\ size w = (shape2 X).2 ->
        exists pobj g,
          [/\ f_logistic exp log X y all_pobj w
              = (Ok pobj, rcons all_pobj pobj),
              fprime_logistic exp X y w = Ok g
            & size g = size w]
    & size w != (shape2 X).2 ->
        f_logistic exp log X y all_pobj w = (Err DimensionMismatch, all_pobj)
        /\ fprime_logistic exp X y w = Err DimensionMismatch].
Proof.
move=> wfX sy; split=> [sw|ne_w]; last first.
  by rewrite /f_logistic /fprime_logistic matmul_err.
pose z := [seq dotv r w | r <- rows2 X].
have sz : size z = size y by rewrite size_map sy wf2_size.
have sz' : size [seq - t | t <- y] = size z by rewrite size_map.
pose ywTx := [seq p.1 * p.2 | p <- zip y z].
pose temp := [seq 1 / (1 + exp t) | t <- ywTx].
have st : size y = size temp by rewrite !size_map size_zip sz minnn.
pose yt := [seq p.1 * p.2 | p <- zip y temp].
have syt : size yt = (shape2 (np_T X)).2.
  by rewrite size_map size_zip -st minnn.
eexists; exists [seq - t | t <- [seq dotv r yt | r <- rows2 (np_T X)]].
split.
- by rewrite /f_logistic matmul_ok //= (bcast1_same _ sz') /=.
- rewrite /fprime_logistic matmul_ok //= (bcast1_same _ (esym sz)) /=.
  by rewrite (bcast1_same _ st) /= matmul_ok.
by rewrite !size_map size_iota.
Qed.

Lemma dotv_oppl u v : dotv [seq - t | t <- u] v = - dotv u v.
Proof.
rewrite /dotv; elim: u v => [|s u IH] [|t v] //=; rewrite ?oppr0 //.
by rewrite IH mulNr opprD.
Qed.

Lemma dotv_gt0_terms u v :
  size u = size v -> (0 < size u)%N ->
  (forall i, (i < size u)%N -> 0 < nth 0 u i * nth 0 v i) ->
  0 < dotv u v.
Proof.
elim: u v => [|s u IH] [|t v] //= [suv] _ pos.
rewrite /dotv /= -/(dotv u v); have s_pos := pos 0%N isT.
case su: (size u) => [|k].
  by rewrite (size0nil su) /dotv; case: (v) => [|? ?] /=; rewrite addr0.
apply: addr_gt0 => //; apply: IH => //; first by rewrite su.
by move=> i lt_i; apply: (pos i.+1).
Qed.

(** [np.dot(X.T, v) . u = v . np.dot(X, u)] *)
Lemma dotv_matmul_T X v u :
  wf2 X -> size v = (shape2 X).1 -> size u = (shape2 X).2 ->
  dotv [seq dotv c v | c <- rows2 (np_T X)] u
  = dotv v [seq dotv r u | r <- rows2 X].
Proof.
move=> wfX sv su.
rewrite (@dotvE _ (shape2 X).2) ?size_map ?size_iota //.
rewrite (@dotvE _ (shape2 X).1 v) ?size_map ?wf2_size //.
have -> : \sum_(j < (shape2 X).2)
            nth 0 [seq dotv c v | c <- rows2 (np_T X)] j * nth 0 u j
          = \sum_(j < (shape2 X).2) \sum_(i < (shape2 X).1)
              np_entry X i j * nth 0 v i * nth 0 u j.
  apply: eq_bigr => j _.
  rewrite (nth_map [::]) ?size_mkseq // nth_mkseq //.
  rewrite (@dotvE _ (shape2 X).1) ?size_np_col ?wf2_size // mulr_suml.
  by apply: eq_bigr => i _; rewrite nth_np_col ?wf2_size.
rewrite exchange_big /=; apply: eq_bigr => i _.
rewrite (nth_map [::]) ?wf2_size //.
rewrite (@dotvE _ (shape2 X).2) ?wf2_nth // mulr_sumr.
by apply: eq_bigr => j _; rewrite mulrCA mulrA.
Qed.

(** X20, in exact arithmetic and for an exponential that is positive
    everywhere: on data some direction [u] separates, [y_i (x_i . u) > 0]
    for every sample, the gradient [fprime(w)] is never zero: its product
    with [u] is negative at every [w], so the objective decreases along
    [u] everywhere and has no stationary point.  In double precision
    [np.exp] overflows to infinity for large arguments, the quotient is
    then exactly zero, and the gradient can vanish. *)
Theorem separable_gradient_never_vanishes X y w u :
  wf2 X -> (0 < (shape2 X).1)%N -> size y = (shape2 X).1 ->
  size w = (shape2 X).2 -> size u = (shape2 X).2 ->
  (forall t, 0 < exp t) ->
  (forall i, (i < (shape2 X).1)%N ->
     0 < nth 0 y i * dotv (nth [::] (rows2 X) i) u) ->
  exists2 g, fprime_logistic exp X y w = Ok g & dotv g u < 0.
Proof.
move=> wfX n_gt0 sy sw su exp_gt0 sep.
pose z := [seq dotv r w | r <- rows2 X].
have sz : size z = size y by rewrite size_map sy wf2_size.
pose ywTx := [seq p.1 * p.2 | p <- zip y z].
pose temp := [seq 1 / (1 + exp t) | t <- ywTx].
have st : size y = size temp by rewrite !size_map size_zip sz minnn.
pose yt := [seq p.1 * p.2 | p <- zip y temp].
have syt : size yt = (shape2 X).1 by rewrite size_map size_zip -st minnn.
exists [seq - t | t <- [seq dotv r yt | r <- rows2 (np_T X)]].
  rewrite /fprime_logistic matmul_ok //= (bcast1_same _ (esym sz)) /=.
  by rewrite (bcast1_same _ st) /= matmul_ok.
rewrite dotv_oppl oppr_lt0 dotv_matmul_T //.
apply: dotv_gt0_terms; rewrite ?syt ?size_map ?wf2_size // => i lt_i.
rewrite (nth_map (0, 0)) ?size_zip -?st ?minnn ?sy // nth_zip //=.
rewrite (nth_map 0) ?size_map ?size_zip ?sz ?minnn ?sy //.
rewrite (nth_map [::]) ?wf2_size // mulrAC.
by rewrite mulr_gt0 ?sep // divr_gt0 // addr_gt0.
Qed.

End LogisticObjective.

(** ** The cells that call the drivers *)

Section DriverCells.

Variable F : realFieldType.
Variable info : Type.
Variable cg : linear_operator F -> vec F -> option (vec F)
              -> result (vec F * info).
Implicit Types (g : globals F) (X Xb : spmatrix F) (y w : vec F).
Implicit Types (alpha c : F).

(** X21: the cell of the second way, [w_hat, b_hat = sparse_ridge(Xb,
    y, alpha)] on [Xb = hstack((X, c * ones))]: when the driver returns,
    the unpacking succeeds exactly for a single feature, and gives the
    two coordinates of the solution; with any other number of features
    the cell fails on the unpacking, after the solve. *)
Theorem ridge_unpacked_single_feature g X c Xb y alpha w :
  sized_solver cg ->
  hstack_const X (nrows X) c = Ok Xb ->
  sparse_ridge cg g Xb y alpha None = Ok w ->
  (ncols X = 1%N ->
     ridge_unpacked cg g Xb y alpha = Ok (nth 0 w 0, nth 0 w 1))
  /\ (ncols X != 1%N -> ridge_unpacked cg g Xb y alpha = Err UnpackError).
Proof.
move=> cg_sized; rewrite /hstack_const eqxx => -[<-{Xb}] ridgeE.
have sw : size w = (ncols X).+1.
  move: ridgeE; rewrite /sparse_ridge /=.
  case: (spdot _ _) => //= b; case cgE: (cg _ _ _) => [[x i]|e] //= [<-].
  exact: (cg_sized _ _ _ _ _ cgE).
rewrite /ridge_unpacked ridgeE /=; split=> [p1|].
  by move: sw; rewrite p1; case: (w) => [|a [|b [|? ?]]].
by move: sw; case: (w) => [|a [|b [|? ?]]] //= [<-].
Qed.

(** X22: the module-level operator [A] keeps the shape it was built
    with and reads [X] and [alpha] at each call.  While [X] has as many
    columns as the shape says, [A] applies the current [X^T X + alpha I];
    once [X] is rebound to a matrix with another number of columns every
    application of [A] fails, whatever the length of the argument. *)
Theorem module_operator_reads_current_globals (g0 : globals F) g w :
  (ncols (g_X g) = g_n_features g0 -> size w = g_n_features g0 ->
     apply (module_operator g0 g) w
     = Ok (addv (spmv (transpose (g_X g)) (spmv (g_X g) w))
                (scalev (g_alpha g) w)))
  /\ (ncols (g_X g) != g_n_features g0 ->
       apply (module_operator g0 g) w = Err DimensionMismatch).
Proof.
split=> [nX sw|ne_n]; rewrite /apply /=.
  by rewrite sw eqxx matvec_globals ridge_matvec_ok // sw nX.
case: eqP => // sw; rewrite matvec_globals /ridge_matvec spdot_err //.
by rewrite sw eq_sym.
Qed.

End DriverCells.

(** ** Concrete runs *)

Lemma hstack_prediction_witness :
  exists2 Xb, hstack_const Cases.X_col 2 2%:R = Ok Xb
    & spdot Xb (rcons [:: 1] 1)
      = Ok [seq t + 2%:R * 1 | t <- spmv Cases.X_col [:: 1]].
Proof.
exact: (proj1 (@hstack_prediction _ Cases.X_col 2 2%:R [:: 1] 1
                 (erefl _) (erefl _)) (erefl _)).
Defined.




Lemma sparse_ridge_output_length_witness :
  sparse_ridge (library_cg Examples.tol_ex 10) Examples.g_nb
    Examples.X_one Examples.y_one 0 None = Ok [:: 1]
  /\ [/\ size Examples.y_one = nrows Examples.X_one,
         size [:: 1 : rat] = ncols Examples.X_one
       & start_ok (ncols Examples.X_one) (Some [:: 1 : rat])].
Proof.
have run : sparse_ridge (library_cg Examples.tol_ex 10) Examples.g_nb
             Examples.X_one Examples.y_one 0 None = Ok [:: 1].
  by apply/eqP; vm_compute.
split; first exact: run.
exact: (@sparse_ridge_output_length _ _ (library_cg Examples.tol_ex 10)
          Examples.g_nb Examples.X_one Examples.y_one 0 None [:: 1]
          (@library_cg_sized _ Examples.tol_ex 10) run).
Defined.





Lemma intercept_residual_domain_witness :
  exists2 r, f_intercept Cases.X_dense Cases.y_dense [:: 2%:R; 1] = Returns r
           & size r = 2%N.
Proof.
have [returns _ _] :=
  @intercept_residual_domain _ Cases.X_dense Cases.y_dense [:: 2%:R; 1]
    (erefl _) (erefl _).
exact: (returns (erefl _)).
Defined.




Lemma binary_prep_invariants_witness :
  let kept := [seq i <- iota 0 (size Cases.iris_target)
              | nth 0 Cases.iris_target i < 2] in
  exists X (labels : seq int),
    binary_prep Cases.iris_data Cases.iris_target = Returns (X, labels)
    /\ [/\ rows2 X
           = [seq rcons (take 2 (nth [::] (rows2 Cases.iris_data) i)) 1
             | i <- kept],
           labels
           = [seq (if nth 0 Cases.iris_target i == 0 then -1 else 1)
             | i <- kept],
           shape2 X = (size kept, (minn 2 (shape2 Cases.iris_data).2).+1),
           size kept = count (fun t => t < 2) Cases.iris_target
         & wf2 X].
Proof.
have [returns _] :=
  @binary_prep_invariants _ Cases.iris_data Cases.iris_target
    (erefl _) (erefl _).
exact: (returns (erefl _)).
Defined.

Lemma sign_check_zero_iff_correct_witness :
  exists2 r, sign_check Cases.X_dense_ones Cases.y_pm Cases.u_sep = Ok r
    & size r = 2%N
      /\ forall i, (i < 2)%N ->
           (nth 0 r i == 0)
           = (0 < nth 0 Cases.y_pm i
                  * dotv (nth [::] (rows2 Cases.X_dense_ones) i) Cases.u_sep).
Proof.
have labels : all (fun t : rat => (t == 1) || (t == -1)) Cases.y_pm.
  by vm_compute.
exact: (@sign_check_zero_iff_correct _ Cases.X_dense_ones Cases.y_pm
          Cases.u_sep (erefl _) (erefl _) (erefl _) labels).
Defined.

Lemma logistic_objective_and_gradient_domain_witness :
  exists pobj g,
    [/\ f_logistic Cases.exp_ex Cases.log_ex Cases.X_dense_ones Cases.y_pm
          [::] [:: 0; 0]
        = (Ok pobj, rcons [::] pobj),
        fprime_logistic Cases.exp_ex Cases.X_dense_ones Cases.y_pm [:: 0; 0]
        = Ok g
      & size g = size [:: 0 : rat; 0]].
Proof.
have [returns _] :=
  @logistic_objective_and_gradient_domain _ Cases.exp_ex Cases.log_ex
    Cases.X_dense_ones Cases.y_pm [::] [:: 0; 0] (erefl _) (erefl _).
exact: (returns (erefl _)).
Defined.

Lemma separable_gradient_never_vanishes_witness :
  exists2 g,
    fprime_logistic Cases.exp_ex Cases.X_dense_ones Cases.y_pm [:: 0; 0]
    = Ok g
    & dotv g Cases.u_sep < 0.
Proof.
have exp_gt0 t : 0 < Cases.exp_ex t.
  by rewrite /Cases.exp_ex ltr_pwDl // -expr2 sqr_ge0.
have sep i : (i < 2)%N ->
    0 < nth 0 Cases.y_pm i
        * dotv (nth [::] (rows2 Cases.X_dense_ones) i) Cases.u_sep.
  by case: i => [|[|i]] // _; vm_compute.
exact: (@separable_gradient_never_vanishes _ Cases.exp_ex Cases.X_dense_ones
          Cases.y_pm [:: 0; 0] Cases.u_sep (erefl _) (erefl _) (erefl _)
          (erefl _) (erefl _) exp_gt0 sep).
Defined.

Lemma ridge_unpacked_single_feature_witness :
  ridge_unpacked (library_cg Examples.tol_ex 0) Examples.g_nb
    Cases.X_col_twos Cases.y_twos 1
  = Ok (nth 0 (zeros rat 2) 0, nth 0 (zeros rat 2) 1).
Proof.
have run : sparse_ridge (library_cg Examples.tol_ex 0) Examples.g_nb
             Cases.X_col_twos Cases.y_twos 1 None = Ok (zeros rat 2).
  by apply/eqP; vm_compute.
exact: (proj1 (@ridge_unpacked_single_feature _ _
                 (library_cg Examples.tol_ex 0) Examples.g_nb Cases.X_col
                 2%:R Cases.X_col_twos Cases.y_twos 1 (zeros rat 2)
                 (@library_cg_sized _ Examples.tol_ex 0) (erefl _) run)
              (erefl _)).
Defined.

Lemma option2_matrix_two_columns_witness :
  exists2 M, option2_matrix Cases.X_dense_ones 1 = Ok M
    & shape2 M = (2%N, 2%N)
      /\ forall i j, (i < 2)%N -> (j < 2)%N ->
           np_entry M i j
           = dotv (np_col Cases.X_dense_ones i) (np_col Cases.X_dense_ones j)
             + 1 * (i == j)%:R.
Proof.
have [two _ _] := @option2_matrix_two_columns _ Cases.X_dense_ones 1.
exact: (two (erefl _)).
Defined.

Lemma module_operator_reads_current_globals_witness :
  apply (module_operator Examples.g_nb Examples.g_nb) [:: 1; 1]
  = Ok (addv (spmv (transpose Examples.X_diag12)
                (spmv Examples.X_diag12 [:: 1; 1]))
             (scalev 0 [:: 1; 1]))
  /\ apply (module_operator Examples.g_other Examples.g_nb) [:: 1]
     = Err DimensionMismatch.
Proof.
split.
  exact: (proj1 (@module_operator_reads_current_globals _ Examples.g_nb
                   Examples.g_nb [:: 1; 1]) (erefl _) (erefl _)).
exact: (proj2 (@module_operator_reads_current_globals _ Examples.g_other
                 Examples.g_nb [:: 1]) (erefl _)).
Defined.
